(** * archive-github-org: the listing, cloning and packaging pipeline of main.go

    A shallow embedding of [src/main.go].  The file follows the program:
    - [Lister]: [fetchReposData], the paginated listing loop;
    - [Pool]: [storeReposResponses], [cloneRepos] and the [wg.Wait()] barrier
      of [main], as a labelled transition system over goroutine states;
    - [Packager]: [fillZipWriter], the directory walk that fills the zip writer;
    - [Orchestrator]: the tail of [main], from opening the zip file on, with
      its deferred calls. *)

From Stdlib Require Import ZArith Lia Ascii.
From stdpp Require Import base tactics option list strings pretty relations.

Local Open Scope string_scope.
Local Open Scope list_scope.
Local Open Scope stdpp_scope.

(** ** Constants of main.go (lines 23-30) *)

Definition cloningWorkers : nat := 5.
Definition maxPages : nat := 10.
Definition perPage : nat := 100.

(** Modelled from the spec: the type [MinimalRepository] is declared outside
    main.go.  The program reads two of its fields, [Name] and [CloneUrl]; the
    spec's RepositoryDescriptor is "a unique name, a clone URL, and any other
    listing-API fields carried through opaquely". *)
Record MinimalRepository : Type := {
  Name : string;
  CloneUrl : string;
  Opaque_ : string
}.

(** A repository descriptor to build concrete listings from. *)
Definition repo_n (n : nat) : MinimalRepository :=
  {| Name := "repo" +:+ pretty n;
     CloneUrl := "https://host/org/repo" +:+ pretty n +:+ ".git";
     Opaque_ := "" |}.

(** ** Go errors

    A Go [error] value is modelled by its message; the nil error is [None]. *)

Definition error : Type := string.

(** [errors.Wrap] of github.com/pkg/errors: "If err is nil, Wrap returns nil",
    otherwise the message is prefixed to the cause. *)
Definition Wrap (err : option error) (message : string) : option error :=
  match err with
  | None => None
  | Some cause => Some (message +:+ ": " +:+ cause)
  end.

(** The character the Go sources write as a backslash followed by n. *)
Definition newline : string := String (Ascii.ascii_of_nat 10) EmptyString.

(** [errors.Errorf] always builds an error. *)
Definition Errorf (message : string) : option error := Some message.

(** * The Repository Lister *)

Module Lister.

Definition StatusOK : nat := 200.

(** What [json.NewDecoder(resp.Body).Decode] makes of a response body. *)
Inductive body : Type :=
| Undecodable (e : error)
| Decoded (page : list MinimalRepository).

(** What [client.Do(r)] returns for one page request. *)
Inductive reply : Type :=
| TransportFailure (e : error)
| Response (StatusCode : nat) (Body : body).

(** The environment of one call of [fetchReposData]:
    - [new_request_err]: the error of [http.NewRequest] (line 214);
    - [ctx_done i]: whether [<-ctx.Done()] is ready at the [select] of
      iteration [i] (line 227);
    - [client_do i]: the reply to the request for page [i] (line 236). *)
Record env : Type := {
  new_request_err : option error;
  ctx_done : nat -> bool;
  client_do : nat -> reply
}.

(** The outcome: the two return values, and the page numbers requested, in
    order (the observable effect of the calls of [client.Do]). *)
Record outcome : Type := {
  repos_ret : option (list MinimalRepository);
  err_ret : option error;
  requested : list nat
}.

Definition ret (r : option (list MinimalRepository)) (e : option error)
    (reqs : list nat) : outcome :=
  {| repos_ret := r; err_ret := e; requested := reqs |}.

(** The loop of lines 225-258.  [left] counts the iterations that remain
    ([i <= maxPages]), [i] is the loop variable, [err] the variable [err] of
    the function's scope (declared on line 214; the [err] of line 236 is a
    new variable of the [default] clause and shadows it), [repos] the
    accumulator and [reqs] the requests issued so far. *)
Fixpoint pages (E : env) (left i : nat) (err : option error)
    (repos : list MinimalRepository) (reqs : list nat) : outcome :=
  match left with
  | O => ret (Some repos) None reqs                       (* line 259 *)
  | S left' =>
      if ctx_done E i then
        ret None (Wrap err "context finished") reqs       (* line 228 *)
      else
        match client_do E i with
        | TransportFailure e =>
            ret None (Wrap (Some e) "could not do the request") (reqs ++ [i])
        | Response code b =>
            if negb (Nat.eqb code StatusOK) then
              ret None
                (Errorf ("received invalid response code for batch "
                         +:+ pretty i +:+ ":'" +:+ pretty code +:+ "'"))
                (reqs ++ [i])
            else
              match b with
              | Undecodable e =>
                  ret None (Wrap (Some e) "could not decode response")
                    (reqs ++ [i])
              | Decoded respStr =>
                  let repos' := repos ++ respStr in
                  if Nat.ltb (length respStr) perPage then
                    ret (Some repos') None (reqs ++ [i])  (* line 255 *)
                  else pages E left' (S i) err repos' (reqs ++ [i])
              end
        end
  end.

Definition fetchReposData (E : env) : outcome :=
  match new_request_err E with
  | Some e =>
      ret None (Wrap (Some e) "could not create new http request") []
  | None => pages E maxPages 1 None [] []
  end.

(** An environment in which nothing fails and the deadline never fires:
    page [i] of the listing is [listing i]. *)
Definition healthy (listing : nat -> list MinimalRepository) : env :=
  {| new_request_err := None;
     ctx_done := fun _ => false;
     client_do := fun i => Response StatusOK (Decoded (listing i)) |}.

(** The concatenation of pages [i], [i+1], ..., [i+k-1]. *)
Definition concat_pages (listing : nat -> list MinimalRepository)
    (i k : nat) : list MinimalRepository :=
  concat (map listing (seq i k)).

(** A page that makes the loop go on: status OK, decodable, not short. *)
Definition full_reply (E : env) (j : nat) : Prop :=
  ctx_done E j = false /\
  exists p, client_do E j = Response StatusOK (Decoded p) /\
            perPage <= length p.

(** Two environments that behave alike on the pages [i], ..., [i+n-1]. *)
Definition agree_on (E E' : env) (i n : nat) : Prop :=
  forall d, d < n ->
    ctx_done E' (i + d) = ctx_done E (i + d) /\
    client_do E' (i + d) = client_do E (i + d).

(** The listing of the scenario of the spec: 150 repositories on two pages. *)
Definition listing150 (i : nat) : list MinimalRepository :=
  match i with
  | 1 => map repo_n (seq 0 100)
  | 2 => map repo_n (seq 100 50)
  | _ => []
  end.

(** A listing of which every page is full, however far one reads. *)
Definition endless (i : nat) : list MinimalRepository :=
  map repo_n (seq (i * perPage) perPage).

(** An environment whose deadline has fired before the first request. *)
Definition expired (client : nat -> reply) : env :=
  {| new_request_err := None;
     ctx_done := fun _ => true;
     client_do := client |}.

(** An environment whose deadline fires after [n] requests. *)
Definition expiring (n : nat) (listing : nat -> list MinimalRepository) : env :=
  {| new_request_err := None;
     ctx_done := fun i => Nat.ltb n i;
     client_do := fun i => Response StatusOK (Decoded (listing i)) |}.

End Lister.

(** * The clone worker pool, the metadata persister and the join barrier

    Lines 59-64 of [main] with [storeReposResponses] (195-210) and
    [cloneRepos] (151-193).  Each goroutine is a small automaton; a state of
    the program holds the position of every goroutine, the shared objects
    ([wg], [ctx], the channel [work]) and what has been observed so far.  An
    [action] names the goroutine that moves and, where the code leaves a
    choice to the environment, the choice made. *)

Module Pool.

(** The goroutine started at line 157. *)
Inductive worker : Type :=
| Starting              (* before the Printf of line 159 *)
| Selecting             (* at the select of line 161 *)
| Cloning (s : string)  (* inside git.PlainCloneContext, line 173 *)
| Returned.             (* returned; the deferred wg.Done() has run *)

(** The goroutine started at line 197. *)
Inductive persister : Type :=
| Saving                (* between line 198 and line 208 *)
| Saved                 (* returned normally *)
| Failed.               (* panicked, line 202 or 206 *)

(** The main goroutine, from line 60 to line 66. *)
Inductive pc : Type :=
| AtStore                                  (* line 60 *)
| AtSpawn (i : nat)                        (* line 154, loop variable i *)
| AtSend (rest : list MinimalRepository)   (* line 188, reposData[i:] *)
| AtWait                                   (* line 64 *)
| AtPackage.                               (* line 66: wg.Wait() returned *)

Record state : Type := {
  main : pc;
  wg : nat;                          (* the WaitGroup counter *)
  cancelled : bool;                  (* ctx.Done() is closed *)
  closed : bool;                     (* close(work) has run *)
  workers : list worker;             (* worker i is the i-th goroutine *)
  persist : option persister;        (* None: not started yet *)
  panicked : option string;          (* the process died of a panic *)
  sent : list string;                (* values handed over on [work] *)
  attempts : list (string * option error);  (* clones that returned *)
  stdout : list string
}.

Definition init : state :=
  {| main := AtStore; wg := 0; cancelled := false; closed := false;
     workers := []; persist := None; panicked := None;
     sent := []; attempts := []; stdout := [] |}.

Definition set_main (m : pc) (s : state) : state :=
  {| main := m; wg := wg s; cancelled := cancelled s; closed := closed s;
     workers := workers s; persist := persist s; panicked := panicked s;
     sent := sent s; attempts := attempts s; stdout := stdout s |}.

Definition set_wg (n : nat) (s : state) : state :=
  {| main := main s; wg := n; cancelled := cancelled s; closed := closed s;
     workers := workers s; persist := persist s; panicked := panicked s;
     sent := sent s; attempts := attempts s; stdout := stdout s |}.

Definition set_cancelled (b : bool) (s : state) : state :=
  {| main := main s; wg := wg s; cancelled := b; closed := closed s;
     workers := workers s; persist := persist s; panicked := panicked s;
     sent := sent s; attempts := attempts s; stdout := stdout s |}.

Definition set_closed (b : bool) (s : state) : state :=
  {| main := main s; wg := wg s; cancelled := cancelled s; closed := b;
     workers := workers s; persist := persist s; panicked := panicked s;
     sent := sent s; attempts := attempts s; stdout := stdout s |}.

Definition set_workers (ws : list worker) (s : state) : state :=
  {| main := main s; wg := wg s; cancelled := cancelled s; closed := closed s;
     workers := ws; persist := persist s; panicked := panicked s;
     sent := sent s; attempts := attempts s; stdout := stdout s |}.

Definition set_persist (p : option persister) (s : state) : state :=
  {| main := main s; wg := wg s; cancelled := cancelled s; closed := closed s;
     workers := workers s; persist := p; panicked := panicked s;
     sent := sent s; attempts := attempts s; stdout := stdout s |}.

Definition set_panicked (m : option string) (s : state) : state :=
  {| main := main s; wg := wg s; cancelled := cancelled s; closed := closed s;
     workers := workers s; persist := persist s; panicked := m;
     sent := sent s; attempts := attempts s; stdout := stdout s |}.

Definition push_sent (u : string) (s : state) : state :=
  {| main := main s; wg := wg s; cancelled := cancelled s; closed := closed s;
     workers := workers s; persist := persist s; panicked := panicked s;
     sent := sent s ++ [u]; attempts := attempts s; stdout := stdout s |}.

Definition push_attempt (u : string) (r : option error) (s : state) : state :=
  {| main := main s; wg := wg s; cancelled := cancelled s; closed := closed s;
     workers := workers s; persist := persist s; panicked := panicked s;
     sent := sent s; attempts := attempts s ++ [(u, r)]; stdout := stdout s |}.

(** [fmt.Printf] and [fmt.Println]. *)
Definition print (line : string) (s : state) : state :=
  {| main := main s; wg := wg s; cancelled := cancelled s; closed := closed s;
     workers := workers s; persist := persist s; panicked := panicked s;
     sent := sent s; attempts := attempts s; stdout := stdout s ++ [line] |}.

(** [wg.Add(1)]. *)
Definition wg_add (s : state) : state := set_wg (S (wg s)) s.

(** [wg.Done()]: a counter that would go negative panics. *)
Definition wg_done (s : state) : state :=
  match wg s with
  | O => set_panicked (Some "sync: negative WaitGroup counter") s
  | S n => set_wg n s
  end.

(** The line of line 181. *)
Definition clone_error_line (u : string) (e : error) : string :=
  String.concat "" [newline; "error cloning "; u; ":"; e; newline].

Inductive action : Type :=
| Main                      (* the main goroutine runs its next statement *)
| Handover (j : nat)        (* the send of line 189 meets worker j's receive *)
| WStart (j : nat)          (* worker j prints line 159 and enters the loop *)
| WCtxDone (j : nat)        (* worker j's select takes <-ctx.Done() *)
| WClosed (j : nat)         (* worker j's receive reports the channel closed *)
| WCloneReturns (j : nat) (err : option error)  (* PlainCloneContext returns *)
| PSaved                    (* the persister writes the file and returns *)
| PPanic (msg : string)     (* the persister panics *)
| Deadline.                 (* programTimeout elapses: ctx is done *)

Section Program.
(** [N] is the number of workers ([cloningWorkers] in main.go) and
    [reposData] the listing handed to both goroutine families. *)
Variable N : nat.
Variable reposData : list MinimalRepository.

(** One statement of the main goroutine.  The send of line 189 is not
    here: it needs a receiver, see [Handover]. *)
Definition main_step (s : state) : option state :=
  match main s with
  | AtStore =>
      Some (set_main (AtSpawn 0) (set_persist (Some Saving) (wg_add s)))
  | AtSpawn i =>
      if Nat.ltb i N
      then Some (set_main (AtSpawn (S i))
                   (set_workers (workers s ++ [Starting]) (wg_add s)))
      else Some (set_main (AtSend reposData) s)
  | AtSend [] =>
      Some (print "Waiting for workers to finish..."
              (set_main AtWait (set_closed true s)))
  | AtSend (_ :: _) => None
  | AtWait =>
      match wg s with
      | O => Some (print "Preparing zip archive..." (set_main AtPackage s))
      | S _ => None
      end
  | AtPackage => None
  end.

(** The line of line 190; [rest] being [reposData[i:]], the loop index
    [i] is [len(reposData) - len(rest)]. *)
Definition requested_line (repo : MinimalRepository) (i : nat) : string :=
  String.concat ""
    ["cloning of '"; Name repo; "' requested, "; pretty i; "/";
     pretty (length reposData)].

Definition fire_alive (a : action) (s : state) : option state :=
  match a with
  | Main => main_step s
  | Handover j =>
      match main s, workers s !! j with
      | AtSend (repo :: rest), Some Selecting =>
          Some (print (requested_line repo
                         (S (length reposData - length (repo :: rest))))
                  (set_main (AtSend rest)
                     (push_sent (CloneUrl repo)
                        (set_workers
                           (<[j := Cloning (CloneUrl repo)]> (workers s)) s))))
      | _, _ => None
      end
  | WStart j =>
      match workers s !! j with
      | Some Starting =>
          Some (print ("starting worker " +:+ pretty j)
                  (set_workers (<[j := Selecting]> (workers s)) s))
      | _ => None
      end
  | WCtxDone j =>
      match cancelled s, workers s !! j with
      | true, Some Selecting =>
          Some (wg_done
                  (print ("context done for worker " +:+ pretty j
                          +:+ ", context deadline exceeded")
                     (set_workers (<[j := Returned]> (workers s)) s)))
      | _, _ => None
      end
  | WClosed j =>
      match closed s, workers s !! j with
      | true, Some Selecting =>
          Some (wg_done
                  (print ("work done for worker " +:+ pretty j)
                     (set_workers (<[j := Returned]> (workers s)) s)))
      | _, _ => None
      end
  | WCloneReturns j err =>
      match workers s !! j with
      | Some (Cloning u) =>
          let s' := push_attempt u err
                      (set_workers (<[j := Selecting]> (workers s)) s) in
          Some (match err with
                | Some e => print (clone_error_line u e) s'
                | None => s'
                end)
      | _ => None
      end
  | PSaved =>
      match persist s with
      | Some Saving =>
          Some (wg_done
                  (print "fetched repositories responses saved to file"
                     (print "saving fetched repositories responses to file..."
                        (set_persist (Some Saved) s))))
      | _ => None
      end
  | PPanic msg =>
      match persist s with
      | Some Saving =>
          Some (set_panicked (Some msg)
                  (wg_done
                     (print "saving fetched repositories responses to file..."
                        (set_persist (Some Failed) s))))
      | _ => None
      end
  | Deadline =>
      if cancelled s then None else Some (set_cancelled true s)
  end.

(** A process that has panicked runs no more.  The panic is taken to end
    the process in the step in which it is raised; in Go the other
    goroutines can still run until the runtime has exited. *)
Definition fire (a : action) (s : state) : option state :=
  match panicked s with
  | Some _ => None
  | None => fire_alive a s
  end.

Definition step (s s' : state) : Prop := exists a, fire a s = Some s'.

Definition reachable (s : state) : Prop := rtc step init s.

(** A schedule is run action by action. *)
Fixpoint run (acts : list action) (s : state) : option state :=
  match acts with
  | [] => Some s
  | a :: acts' =>
      match fire a s with
      | Some s' => run acts' s'
      | None => None
      end
  end.

(** No goroutine can move. *)
Definition stuck (s : state) : Prop := forall a, fire a s = None.

(** Steps other than the deadline firing and the persister panicking. *)
Definition quiet (a : action) : bool :=
  match a with
  | Deadline | PPanic _ => false
  | _ => true
  end.

Definition quiet_step (s s' : state) : Prop :=
  exists a, quiet a = true /\ fire a s = Some s'.

End Program.

(** URLs handed to a worker whose clone has not returned yet. *)
Definition flight (w : worker) : list string :=
  match w with Cloning u => [u] | _ => [] end.

Definition in_flight (ws : list worker) : list string :=
  flat_map flight ws.

(** Goroutines that still owe the WaitGroup a [Done]. *)
Definition owes (w : worker) : nat :=
  match w with Returned => 0 | _ => 1 end.

Definition owing (ws : list worker) (p : option persister) : nat :=
  sum_list_with owes ws + match p with Some Saving => 1 | _ => 0 end.

(** The number of steps that the goroutines have left at most, when the
    deadline stays away: the measure of termination. *)
Definition worker_fuel (w : worker) : nat :=
  match w with
  | Starting | Cloning _ => 2
  | Selecting => 1
  | Returned => 0
  end.

Definition main_fuel (N : nat) (reposData : list MinimalRepository)
    (m : pc) : nat :=
  match m with
  | AtStore => 3 * N + 2 * length reposData + 5
  | AtSpawn i => 3 * (N - i) + 2 * length reposData + 3
  | AtSend rest => 2 * length rest + 2
  | AtWait => 1
  | AtPackage => 0
  end.

Definition fuel (N : nat) (reposData : list MinimalRepository)
    (s : state) : nat :=
  main_fuel N reposData (main s)
  + sum_list_with worker_fuel (workers s)
  + match persist s with Some Saving => 1 | _ => 0 end.

(** The part of the listing that the feeding loop has not sent yet. *)
Definition unsent (reposData : list MinimalRepository) (m : pc)
    : list MinimalRepository :=
  match m with
  | AtStore | AtSpawn _ => reposData
  | AtSend rest => rest
  | AtWait | AtPackage => []
  end.

(** The fields that decide which actions are enabled. *)
Definition control (s : state)
    : pc * nat * bool * bool * list worker * option persister * option string :=
  (main s, wg s, cancelled s, closed s, workers s, persist s, panicked s).

(** ** Concrete schedules *)

Definition for_workers (f : nat -> action) : list action :=
  map f (seq 0 cloningWorkers).

(** Lines 60-61 up to the first send, every worker at its select, the
    metadata file written. *)
Definition startup : list action :=
  [Main] ++ repeat Main cloningWorkers ++ [Main]
  ++ for_workers WStart ++ [PSaved].

Definition two_repos : list MinimalRepository := [repo_n 0; repo_n 1].

(** Two repositories, the first of which fails to clone; no deadline. *)
Definition full_schedule : list action :=
  startup
  ++ [Handover 0; Handover 1;
      WCloneReturns 0 (Some "repository not found");
      WCloneReturns 1 None;
      Main]
  ++ for_workers WClosed ++ [Main].

(** The same run, stopped while the first clone is still going on. *)
Definition cloning_schedule : list action := startup ++ [Handover 0].

Definition ten_repos : list MinimalRepository := map repo_n (seq 0 10).

(** The scenario of the spec: of ten repositories three have been handed
    to workers, one clone has completed, when the deadline fires; the two
    clones in flight are cancelled and every worker's next select takes
    [<-ctx.Done()]. *)
Definition deadline_schedule : list action :=
  startup
  ++ [Handover 0; Handover 1; Handover 2;
      WCloneReturns 0 None;
      Deadline;
      WCloneReturns 1 (Some "context deadline exceeded");
      WCloneReturns 2 (Some "context deadline exceeded")]
  ++ for_workers WCtxDone.

(** One repository; the deadline fires before any worker has received. *)
Definition early_deadline_schedule : list action :=
  startup ++ [Deadline] ++ for_workers WCtxDone.

Definition state_after (repos : list MinimalRepository)
    (acts : list action) : state :=
  default init (run cloningWorkers repos acts init).

Definition packaged_state : state := state_after two_repos full_schedule.
Definition cloning_state : state := state_after two_repos cloning_schedule.
Definition deadlocked_state : state := state_after ten_repos deadline_schedule.
Definition failed_state : state :=
  state_after two_repos
    (cloning_schedule ++ [WCloneReturns 0 (Some "repository not found")]).
Definition starved_state : state :=
  state_after [repo_n 0] early_deadline_schedule.

(** How many workers have been started when the main goroutine is at [m]. *)
Definition spawned (N : nat) (m : pc) (n : nat) : Prop :=
  match m with
  | AtStore => n = 0
  | AtSpawn i => n = i /\ i <= N
  | _ => n = N
  end.

(** What holds in every state the program can reach. *)
Record invariant (N : nat) (reposData : list MinimalRepository)
    (s : state) : Prop := {
  inv_wg : wg s = owing (workers s) (persist s);
  inv_pool : spawned N (main s) (length (workers s));
  inv_persist : persist s = None <-> main s = AtStore;
  inv_sent :
    sent s ++ map CloneUrl (unsent reposData (main s)) = map CloneUrl reposData;
  inv_attempts : map fst (attempts s) ++ in_flight (workers s) ≡ₚ sent s;
  inv_closed : closed s = true <-> (main s = AtWait \/ main s = AtPackage);
  inv_barrier : main s = AtPackage -> wg s = 0 /\ persist s = Some Saved;
  inv_failed : persist s = Some Failed -> panicked s <> None;
  inv_returned :
    Returned ∈ workers s -> cancelled s = true \/ closed s = true
}.

End Pool.

(** * The Archive Packager

    [fillZipWriter] (lines 88-149) over a model of the working directory.
    Paths are strings with forward slashes, as [path/filepath] has them on
    the hosts where the separator is a slash. *)

Module Packager.

(** Bits of [os.FileMode] (package io/fs). *)
Definition ModeDir : Z := Z.shiftl 1 31.
Definition ModeSymlink : Z := Z.shiftl 1 27.
Definition ModePerm : Z := 511.

(** A directory tree as [os.Lstat] and [os.ReadDir] show it; the entries of
    a directory are kept in the order [ReadDir] returns them. *)
#[local] Unset Elimination Schemes.
Inductive node : Type :=
| File (perm : Z) (data : string)
| Symlink (target : string)
| Dir (perm : Z) (entries : list (string * node)).
#[local] Set Elimination Schemes.

(** [fs.FileInfo.Mode()] of a node. *)
Definition Mode (n : node) : Z :=
  match n with
  | File perm _ => Z.land perm ModePerm
  | Symlink _ => Z.lor ModeSymlink ModePerm
  | Dir perm _ => Z.lor ModeDir (Z.land perm ModePerm)
  end.

(** [fs.DirEntry.IsDir()]. *)
Definition IsDir (n : node) : bool :=
  negb (Z.eqb (Z.land (Mode n) ModeDir) 0).

(** [zip.Store] and [zip.Deflate]. *)
Inductive method : Type := Store | Deflate.

(** The fields of [zip.FileHeader] that the program sets; [HMode] is what
    [SetMode] was given and [Mode()] gives back. *)
Record FileHeader : Type := {
  HName : string;
  Method : method;
  HMode : Z
}.

(** One entry of the archive: its header and the bytes written for it. *)
Record entry : Type := {
  header : FileHeader;
  payload : string
}.

(** The calls that can fail, each at a path. *)
Inductive op : Type :=
| OpReadDir | OpInfo | OpReadlink | OpFileInfoHeader
| OpCreateHeader | OpWrite | OpOpen | OpCopy.

Definition faults : Type := op -> string -> option error.

Definition no_fault : faults := fun _ _ => None.

(** [filepath.Join] of a clean path and a file name. *)
Definition Join (dir name : string) : string := dir +:+ "/" +:+ name.

Fixpoint strip_prefix (p s : string) : option string :=
  match p, s with
  | EmptyString, _ => Some s
  | String a p', String b s' =>
      if Ascii.eqb a b then strip_prefix p' s' else None
  | String _ _, EmptyString => None
  end.

(** [filepath.Rel] for a target at or below the base, which is where
    [filepath.WalkDir] takes the callback; other targets are outside this
    model and are reported as an error. *)
Definition Rel (basepath targpath : string) : string + error :=
  match strip_prefix basepath targpath with
  | Some EmptyString => inl "."
  | Some (String "/"%char rest) => inl rest
  | _ => inr ("Rel: can't make " +:+ targpath +:+ " relative to " +:+ basepath)
  end.

(** [zip.FileInfoHeader]: the base name, the mode of the file, and the
    method left at its zero value, which is [Store]. *)
Definition FileInfoHeader (name : string) (n : node) : FileHeader :=
  {| HName := name; Method := Store; HMode := Mode n |}.

Definition set_name (name : string) (h : FileHeader) : FileHeader :=
  {| HName := name; Method := Method h; HMode := HMode h |}.

Definition mk_entry (h : FileHeader) (data : string) : entry :=
  {| header := h; payload := data |}.

(** What a node holds to copy or to read as a link. *)
Definition contents (n : node) : string :=
  match n with
  | File _ data => data
  | Symlink target => target
  | Dir _ _ => ""
  end.

Section Walk.
Variable F : faults.
Variable dirFilename : string.

(** The function literal of lines 89-148, called with [path], the entry
    found there ([name] is its base name), and the error [err] that
    [WalkDir] passes.  The zip writer is the list of entries written so
    far; an entry whose data could not be written stays, empty. *)
Definition visit (path name : string) (n : node) (err : option error)
    (w : list entry) : list entry * option error :=
  match err with
  | Some e => (w, Some e)                                     (* line 91 *)
  | None =>
  if IsDir n then (w, None)                                   (* line 95 *)
  else
  match F OpInfo path with
  | Some e => (w, Some e)                                     (* line 100 *)
  | None =>
  if Z.eqb (Z.land (Mode n) ModeSymlink) ModeSymlink then     (* line 102 *)
    match F OpReadlink path with
    | Some e => (w, Some e)
    | None =>
        let linkTarget := contents n in
        let header :=
          {| HName := path; Method := Store; HMode := ModeSymlink |} in
        match F OpCreateHeader path with
        | Some e => (w, Some e)
        | None =>
            match F OpWrite path with
            | Some e => (w ++ [mk_entry header ""], Some e)
            | None => (w ++ [mk_entry header linkTarget], None)
            end
        end
    end
  else
    match F OpFileInfoHeader path with
    | Some e => (w, Some e)
    | None =>
        let header := FileInfoHeader name n in
        match Rel dirFilename path with                       (* line 130 *)
        | inr e => (w, Some e)
        | inl rel =>
            let header := set_name rel header in
            match F OpCreateHeader path with
            | Some e => (w, Some e)
            | None =>
                match F OpOpen path with
                | Some e => (w ++ [mk_entry header ""], Some e)
                | None =>
                    match F OpCopy path with
                    | Some e => (w ++ [mk_entry header ""], Some e)
                    | None => (w ++ [mk_entry header (contents n)], None)
                    end
                end
            end
        end
    end
  end
  end.

(** [walkDir] of path/filepath with [visit] for callback: the callback
    first; for a directory [ReadDir], whose error goes to the callback
    again, and then the entries in order, the first error ending the
    walk.  ([visit] never returns [SkipDir].) *)
Fixpoint walkDir (path name : string) (n : node) (w : list entry)
    {struct n} : list entry * option error :=
  match visit path name n None w with
  | (w1, Some e) => (w1, Some e)
  | (w1, None) =>
      match n with
      | Dir _ entries =>
          match F OpReadDir path with
          | Some e => visit path name n (Some e) w1
          | None =>
              (fix walkAll (es : list (string * node)) (w : list entry)
                 : list entry * option error :=
                 match es with
                 | [] => (w, None)
                 | (name1, d1) :: es' =>
                     match walkDir (Join path name1) name1 d1 w with
                     | (w', Some e) => (w', Some e)
                     | (w', None) => walkAll es' w'
                     end
                 end) entries w1
          end
      | _ => (w1, None)
      end
  end.

(** The loop over the entries of a directory, by itself. *)
Fixpoint walkAll (path : string) (es : list (string * node))
    (w : list entry) : list entry * option error :=
  match es with
  | [] => (w, None)
  | (name1, d1) :: es' =>
      match walkDir (Join path name1) name1 d1 w with
      | (w', Some e) => (w', Some e)
      | (w', None) => walkAll path es' w'
      end
  end.

(** [fillZipWriter]: [filepath.WalkDir] from the root.  The root was made
    by [os.Mkdir] (line 54); its [Lstat] is taken to succeed. *)
Definition fillZipWriter (root : node) (w : list entry)
    : list entry * option error :=
  walkDir dirFilename dirFilename root w.

End Walk.

(** The symbolic links of a tree: where each is, and where it points. *)
Fixpoint symlinks (path : string) (n : node) : list (string * string) :=
  match n with
  | File _ _ => []
  | Symlink target => [(path, target)]
  | Dir _ entries =>
      (fix all (es : list (string * node)) : list (string * string) :=
         match es with
         | [] => []
         | (name1, d1) :: es' => symlinks (Join path name1) d1 ++ all es'
         end) entries
  end.

Fixpoint symlinks_all (path : string) (es : list (string * node))
    : list (string * string) :=
  match es with
  | [] => []
  | (name1, d1) :: es' => symlinks (Join path name1) d1 ++ symlinks_all path es'
  end.

(** An entry that records the link at [path] to [target]. *)
Definition records_link (path target : string) (e : entry) : Prop :=
  HName (header e) = path /\
  Z.land (HMode (header e)) ModeSymlink = ModeSymlink /\
  payload e = target.

(** Induction on trees, with the hypothesis for every entry of a directory. *)
Fixpoint node_rect_entries (P : node -> Prop)
    (HF : forall perm data, P (File perm data))
    (HS : forall target, P (Symlink target))
    (HD : forall perm es, Forall (fun x => P x.2) es -> P (Dir perm es))
    (n : node) {struct n} : P n :=
  match n with
  | File perm data => HF perm data
  | Symlink target => HS target
  | Dir perm es =>
      HD perm es
        ((fix go (es : list (string * node)) : Forall (fun x => P x.2) es :=
            match es with
            | [] => @List.Forall_nil _ (fun x => P x.2)
            | (name1, d1) :: es' =>
                @List.Forall_cons _ (fun x => P x.2) (name1, d1) es'
                  (node_rect_entries P HF HS HD d1) (go es')
            end) es)
  end.

(** What a walk that ends without error has added to the writer. *)
Definition records_links (path : string) (links : list (string * string))
    (added : list entry) : Prop :=
  forall p t, (p, t) ∈ links ->
    exists e, e ∈ added /\ records_link p t e /\ Method (header e) = Store.

(** The part of a walked path after the root: empty, or led by a slash. *)
Definition below (rest : string) : Prop :=
  rest = "" \/ exists r, rest = String "/"%char r.

(** A working directory with one clone in it: a file, a link to it, and
    the metadata file beside. *)
Definition sample_tree : node :=
  Dir 511
    [("myrepo",
      Dir 493 [("README.md", File 420 "hello");
               ("latest", Symlink "README.md")]);
     ("responses.json", File 511 "[]")].

Definition sample_root : string := "org-archive-2024".

End Packager.

(** * The tail of the Orchestrator

    Lines 67-86 of [main]: open the zip file, fill the writer, remove the
    working directory, report.  The deferred calls of lines 45, 71 and 74 run
    when [main] returns or panics, the last deferred first, and the values
    they return are dropped. *)

Module Orchestrator.
Import Packager.

(** What the environment decides. *)
Record world : Type := {
  dirFilename : string;
  tree : node;                       (* the working directory at line 66 *)
  io : faults;                       (* failures inside fillZipWriter *)
  open_zip_err : option error;       (* os.OpenFile, line 67 *)
  remove_all_err : option error;     (* os.RemoveAll, line 80 *)
  writer_close_err : option error;   (* w.Close(), deferred on line 74 *)
  file_close_err : option error;     (* zipFile.Close(), deferred on line 71 *)
  elapsed : string                   (* time.Since(start), line 85 *)
}.

Inductive event : Type :=
| OpenedZipFile
| Wrote (w : list entry)             (* what fillZipWriter left in the writer *)
| RemovedWorkingDir
| Printed (line : string)
| ClosedWriter (err : option error)  (* the archive is finalized here *)
| ClosedZipFile (err : option error)
| Cancelled.

Inductive deferred : Type := DeferCancel | DeferFileClose | DeferWriterClose.

Inductive exit : Type :=
| Completed
| Panicked (msg : string).

Definition run_deferred (W : world) (d : deferred) : event :=
  match d with
  | DeferCancel => Cancelled
  | DeferFileClose => ClosedZipFile (file_close_err W)
  | DeferWriterClose => ClosedWriter (writer_close_err W)
  end.

(** Leaving [main] with the stack [ds] of deferred calls, the most recent
    first. *)
Definition leave (W : world) (trace : list event) (ds : list deferred)
    (x : exit) : list event * exit :=
  (trace ++ map (run_deferred W) ds, x).

Definition done_line (W : world) : string :=
  String.concat "" ["Done in "; elapsed W; "!"; newline].

Definition package (W : world) : list event * exit :=
  let ds := [DeferCancel] in                                    (* line 45 *)
  match open_zip_err W with
  | Some e => leave W [] ds (Panicked ("could not open zip file:" +:+ e))
  | None =>
      let ds := DeferFileClose :: ds in                         (* line 71 *)
      let ds := DeferWriterClose :: ds in                       (* line 74 *)
      let '(w, err) := fillZipWriter (io W) (dirFilename W) (tree W) [] in
      let trace := [OpenedZipFile; Wrote w] in
      match err with
      | Some e =>
          leave W trace ds (Panicked ("could not fill zip writer:" +:+ e))
      | None =>
          match remove_all_err W with
          | Some e =>
              leave W trace ds
                (Panicked ("could not remove working directory:" +:+ e))
          | None =>
              leave W (trace ++ [RemovedWorkingDir; Printed (done_line W)])
                ds Completed
          end
      end
  end.

(** The position of the first event that satisfies [p]. *)
Fixpoint position (p : event -> bool) (t : list event) : option nat :=
  match t with
  | [] => None
  | e :: t' => if p e then Some 0 else S <$> position p t'
  end.

Definition is_removed (e : event) : bool :=
  match e with RemovedWorkingDir => true | _ => false end.


(** Reading one file of the clone fails. *)
Definition copy_fails : world :=
  {| dirFilename := sample_root; tree := sample_tree;
     io := fun o path =>
             match o with
             | OpCopy => Some "read error"
             | _ => None
             end;
     open_zip_err := None; remove_all_err := None;
     writer_close_err := None; file_close_err := None; elapsed := "1m0s" |}.

End Orchestrator.

(** * The destination of a clone

    Lines 171-173: the directory a repository is cloned into is named after
    the last element of its URL, [path.Base(s)], without a [.git] suffix. *)

Module Destination.

Definition slash : ascii := "/"%char.

Definition is_slash (c : ascii) : bool := Ascii.eqb c slash.

(** Leading slashes dropped; on a reversed path, the trailing ones. *)
Fixpoint drop_slashes (l : list ascii) : list ascii :=
  match l with
  | c :: l' => if is_slash c then drop_slashes l' else l
  | [] => []
  end.

(** The characters before the first slash; on a reversed path, the last
    element. *)
Fixpoint up_to_slash (l : list ascii) : list ascii :=
  match l with
  | c :: l' => if is_slash c then [] else c :: up_to_slash l'
  | [] => []
  end.

(** [path.Base]: the empty path gives a dot; trailing slashes are stripped;
    what follows the last slash is kept; a path of slashes only gives a
    slash. *)
Definition base_chars (l : list ascii) : list ascii :=
  match l with
  | [] => ["."%char]
  | _ =>
      match rev (up_to_slash (drop_slashes (rev l))) with
      | [] => [slash]
      | elem => elem
      end
  end.

Definition Base (s : string) : string :=
  String.string_of_list_ascii (base_chars (String.list_ascii_of_string s)).

Fixpoint strip_chars (p l : list ascii) : option (list ascii) :=
  match p, l with
  | [], _ => Some l
  | a :: p', b :: l' => if Ascii.eqb a b then strip_chars p' l' else None
  | _ :: _, [] => None
  end.

(** [strings.TrimSuffix]: [s] without the suffix if it ends with it, [s]
    as it is otherwise. *)
Definition trim_suffix_chars (l suffix : list ascii) : list ascii :=
  match strip_chars (rev suffix) (rev l) with
  | Some r => rev r
  | None => l
  end.

Definition TrimSuffix (s suffix : string) : string :=
  String.string_of_list_ascii
    (trim_suffix_chars (String.list_ascii_of_string s) (String.list_ascii_of_string suffix)).

(** The two assignments to [path] of lines 171-172. *)
Definition clone_name (s : string) : string := TrimSuffix (Base s) ".git".

(** The second argument of [git.PlainCloneContext], line 173. *)
Definition clone_path (dirFilename s : string) : string :=
  dirFilename +:+ "/" +:+ clone_name s.

(** A string without a slash. *)
Definition no_slash (s : string) : Prop := slash ∉ String.list_ascii_of_string s.

(** A string that does not end with [.git]. *)
Definition no_git_suffix (s : string) : Prop :=
  strip_chars (rev (String.list_ascii_of_string ".git"))
    (rev (String.list_ascii_of_string s)) = None.

End Destination.

(** * The head of the Orchestrator

    Lines 32-57 of [main]: the two environment variables, the listing, the
    working directory. *)

Module Startup.

Record inputs : Type := {
  ORG : string;                       (* os.Getenv("ORG") *)
  GITHUB_TOKEN : string;              (* os.Getenv("GITHUB_TOKEN") *)
  listing : Lister.env;               (* what fetchReposData meets *)
  now : string;                       (* time.Now().Format(fileDateLayout) *)
  mkdir_err : option error            (* os.Mkdir, line 54 *)
}.

Inductive outcome : Type :=
| Panic (msg : string)
| Running (dirFilename : string) (reposData : list MinimalRepository).

Record result : Type := {
  requests : list nat;                (* page requests issued *)
  printed : list string;
  made_dir : option string;           (* the directory os.Mkdir created *)
  out : outcome
}.

Definition fetched_line (n : nat) : string :=
  String.concat ""
    ["Data for "; pretty n; " repositories fetched in total"; newline].

(** [len] of a slice; the nil slice has length 0. *)
Definition slice (r : option (list MinimalRepository))
    : list MinimalRepository := default [] r.

Definition head (I : inputs) : result :=
  if String.eqb (ORG I) "" then
    {| requests := []; printed := []; made_dir := None;
       out := Panic "ORG env expected" |}
  else if String.eqb (GITHUB_TOKEN I) "" then
    {| requests := []; printed := []; made_dir := None;
       out := Panic "GITHUB_TOKEN env expected" |}
  else
    let r := Lister.fetchReposData (listing I) in
    match Lister.err_ret r with
    | Some e =>
        {| requests := Lister.requested r; printed := []; made_dir := None;
           out := Panic ("could not fetch repos data:" +:+ e) |}
    | None =>
        let reposData := slice (Lister.repos_ret r) in
        let line := fetched_line (length reposData) in
        let dirFilename := String.concat "" [ORG I; "-archive-"; now I] in
        match mkdir_err I with
        | Some e =>
            {| requests := Lister.requested r; printed := [line];
               made_dir := None;
               out := Panic ("could not create directory:" +:+ e) |}
        | None =>
            {| requests := Lister.requested r; printed := [line];
               made_dir := Some dirFilename;
               out := Running dirFilename reposData |}
        end
    end.

(** A run of which the deadline fires after three pages. *)
Definition late : inputs :=
  {| ORG := "acme"; GITHUB_TOKEN := "t0ken";
     listing := Lister.expiring 3 Lister.endless;
     now := "2024-01-02_03:04:05"; mkdir_err := None |}.

End Startup.

(** * What the Lister and the Packager are measured against *)

Module Cases.
Import Lister Packager.

(** A reply that ends the listing with an error: the transport failed, the
    status is not OK, or the body does not decode. *)
Definition failing (r : reply) : Prop :=
  match r with
  | TransportFailure _ => True
  | Response code b => code <> StatusOK \/ exists e, b = Undecodable e
  end.

(** Full pages, and then the server is down. *)
Definition breaking (n : nat) : env :=
  {| new_request_err := None;
     ctx_done := fun _ => false;
     client_do := fun i =>
       if Nat.leb i n then Response StatusOK (Decoded (endless i))
       else Response 502 (Undecodable "unexpected end of JSON input") |}.

(** A listing of [k] full pages and nothing more. *)
Definition exact (k : nat) (i : nat) : list MinimalRepository :=
  if Nat.leb i k then endless i else [].

(** The regular files of a tree: where each is, its permission bits and
    its bytes. *)
Fixpoint regular_files (path : string) (n : node)
    : list (string * Z * string) :=
  match n with
  | File perm data => [(path, perm, data)]
  | Symlink _ => []
  | Dir _ entries =>
      (fix all (es : list (string * node)) : list (string * Z * string) :=
         match es with
         | [] => []
         | (name1, d1) :: es' => regular_files (Join path name1) d1 ++ all es'
         end) entries
  end.

Fixpoint regular_files_all (path : string) (es : list (string * node))
    : list (string * Z * string) :=
  match es with
  | [] => []
  | (name1, d1) :: es' =>
      regular_files (Join path name1) d1 ++ regular_files_all path es'
  end.

(** An entry that records the file at [path] under [root]. *)
Definition records_file (root path : string) (perm : Z) (data : string)
    (e : entry) : Prop :=
  Rel root path = inl (HName (header e)) /\
  HMode (header e) = Z.land perm ModePerm /\
  payload e = data /\
  Method (header e) = Store.

(** The entry is not one of a directory. *)
Definition not_a_directory (e : entry) : Prop :=
  Z.land (HMode (header e)) ModeDir = 0%Z.

(** What a walk without error has added: an entry for each regular file
    and each link, and none for a directory. *)
Definition well_filled (root path : string) (n : node) (added : list entry)
    : Prop :=
  (forall p perm data, (p, perm, data) ∈ regular_files path n ->
     exists e, e ∈ added /\ records_file root p perm data e) /\
  length added = length (regular_files path n) + length (symlinks path n) /\
  Forall not_a_directory added.

Definition well_filled_all (root path : string) (es : list (string * node))
    (added : list entry) : Prop :=
  (forall p perm data, (p, perm, data) ∈ regular_files_all path es ->
     exists e, e ∈ added /\ records_file root p perm data e) /\
  length added
  = length (regular_files_all path es) + length (symlinks_all path es) /\
  Forall not_a_directory added.


End Cases.

(** * More runs of the pool *)

Module Runs.
Import Pool.



(** Both repositories are being cloned. *)
Definition busy_schedule : list action := startup ++ [Handover 0; Handover 3].

Definition busy_state : state := state_after two_repos busy_schedule.

End Runs.

(** * Properties of the Lister *)

Section ListerFacts.
Import Lister.

(** The loop over a run of [k] full pages, with [k] iterations or more left. *)
Lemma pages_through_full (E : env) (k : nat) :
  forall left i err repos reqs,
    (forall d, d < k -> full_reply E (i + d)) ->
    exists ps,
      length ps = k /\
      Forall (fun p => perPage <= length p) ps /\
      (forall d p, ps !! d = Some p ->
                   client_do E (i + d) = Response StatusOK (Decoded p)) /\
      pages E (k + left) i err repos reqs =
      pages E left (i + k) err (repos ++ concat ps) (reqs ++ seq i k).
Proof.
  induction k as [|k IH]; intros left i err repos reqs Hfull.
  - exists []. repeat split; [constructor | intros d p H; inversion H |].
    cbn. rewrite Nat.add_0_r, !app_nil_r. reflexivity.
  - destruct (Hfull 0 ltac:(lia)) as (Hctx & p & Hdo & Hlen).
    rewrite Nat.add_0_r in Hctx, Hdo.
    destruct (IH left (S i) err (repos ++ p) (reqs ++ [i])) as (ps & Hl & Hf & Hd & Heq).
    { intros d Hd. replace (S i + d) with (i + S d) by lia. apply Hfull. lia. }
    exists (p :: ps). repeat split.
    + cbn. lia.
    + constructor; assumption.
    + intros [|d] q Hq; cbn in Hq.
      * inversion Hq; subst. rewrite Nat.add_0_r. exact Hdo.
      * replace (i + S d) with (S i + d) by lia. apply Hd, Hq.
    + change (S k + left) with (S (k + left)). cbn [pages].
      rewrite Hctx, Hdo, Nat.eqb_refl. cbn [negb].
      destruct (Nat.ltb_spec (length p) perPage) as [Hlt|_]; [lia|].
      rewrite Heq. replace (i + S k) with (S i + k) by lia.
      cbn [concat seq]. rewrite <- !app_assoc. reflexivity.
Qed.

(** The loop on a listing without failures: it fetches [k] consecutive
    pages, the last of them the first short one if there is one in range. *)
Lemma pages_healthy (listing : nat -> list MinimalRepository) :
  forall left i err repos reqs,
    exists k,
      k <= left /\ (0 < left -> 0 < k) /\
      pages (healthy listing) left i err repos reqs =
      ret (Some (repos ++ concat_pages listing i k)) None (reqs ++ seq i k) /\
      (forall d, S d < k -> perPage <= length (listing (i + d))) /\
      (k < left -> exists d, k = S d /\ length (listing (i + d)) < perPage).
Proof.
  induction left as [|left IH]; intros i err repos reqs.
  - exists 0. repeat split; try lia.
    cbn. rewrite !app_nil_r. reflexivity.
  - cbn [pages healthy ctx_done client_do].
    rewrite Nat.eqb_refl. cbn [negb].
    destruct (Nat.ltb_spec (length (listing i)) perPage) as [Hshort|Hfull].
    + exists 1. repeat split; try lia.
      * unfold concat_pages. cbn. rewrite app_nil_r. reflexivity.
      * intros _. exists 0. rewrite Nat.add_0_r. split; [reflexivity | exact Hshort].
    + destruct (IH (S i) err (repos ++ listing i) (reqs ++ [i]))
        as (k & Hle & Hpos & Heq & Hbefore & Hlast).
      exists (S k). repeat split; try lia.
      * rewrite Heq. unfold concat_pages. cbn [seq map concat].
        rewrite <- !app_assoc. reflexivity.
      * intros [|d] Hd; [rewrite Nat.add_0_r; exact Hfull |].
        replace (i + S d) with (S i + d) by lia. apply Hbefore. lia.
      * intros Hlt. destruct Hlast as (d & -> & Hd); [lia |].
        exists (S d). split; [reflexivity |].
        replace (i + S d) with (S i + d) by lia. exact Hd.
Qed.

(** Whatever the server replies and whenever the deadline fires, the
    requests are for the pages 1, 2, ... in order, at most [left] of them,
    and each page before the last one requested was a full one. *)
Lemma pages_requests (E : env) :
  forall left i err repos reqs,
    exists k,
      k <= left /\
      requested (pages E left i err repos reqs) = reqs ++ seq i k /\
      (forall d, S d < k -> full_reply E (i + d)).
Proof.
  induction left as [|left IH]; intros i err repos reqs.
  - exists 0. cbn. rewrite app_nil_r.
    split; [lia |]. split; [reflexivity |]. intros d Hd. lia.
  - cbn [pages].
    assert (exists k, k <= S left /\ reqs ++ [i] = reqs ++ seq i k /\
                      (forall d, S d < k -> full_reply E (i + d))) as Hone.
    { exists 1. split; [lia |]. split; [reflexivity |]. intros d Hd. lia. }
    destruct (ctx_done E i) eqn:Hctx.
    { exists 0. cbn. rewrite app_nil_r.
      split; [lia |]. split; [reflexivity |]. intros d Hd. lia. }
    destruct (client_do E i) as [e|code b] eqn:Hdo; [exact Hone |].
    destruct (Nat.eqb_spec code StatusOK) as [->|Hne]; cbn [negb];
      [|exact Hone].
    destruct b as [e|p]; [exact Hone |].
    destruct (Nat.ltb_spec (length p) perPage) as [Hshort|Hfull];
      [exact Hone |].
    destruct (IH (S i) err (repos ++ p) (reqs ++ [i])) as (k & Hle & Hreq & Hbefore).
    exists (S k). split; [lia |]. split.
    + rewrite Hreq. cbn [seq]. by rewrite <- app_assoc.
    + intros [|d] Hd.
      * rewrite Nat.add_0_r. split; [exact Hctx |]. exists p. by split.
      * replace (i + S d) with (S i + d) by lia. apply Hbefore. lia.
Qed.

(** C6.  Whatever is replied, [fetchReposData] requests the pages 1, ..., k
    in order for some k <= maxPages and every page before the k-th was a
    full one: it never fetches past a short page.  On every listing served
    without failure and without the deadline firing it stops at the k-th
    page as soon as that one is short (k < maxPages only then; no empty page
    is waited for), and returns the concatenation of the pages fetched with
    a nil error.  With 100 and then 50 repositories this makes 2 requests
    and 150 descriptors. *)
Theorem lister_stops_at_first_short_page
    (listing : nat -> list MinimalRepository) :
  let r := fetchReposData (healthy listing) in
  (forall E, exists k,
      requested (fetchReposData E) = seq 1 k /\
      k <= maxPages /\
      (forall j, 1 <= j < k -> full_reply E j)) /\
  (exists k,
      requested r = seq 1 k /\
      1 <= k <= maxPages /\
      (forall j, 1 <= j < k -> perPage <= length (listing j)) /\
      (k < maxPages -> length (listing k) < perPage) /\
      repos_ret r = Some (concat_pages listing 1 k) /\
      err_ret r = None) /\
  (length (listing 1) = 100 -> length (listing 2) = 50 ->
   requested r = [1; 2] /\ length <$> repos_ret r = Some 150).
Proof.
  intros r. split.
  { intros E. unfold fetchReposData.
    destruct (new_request_err E).
    - exists 0. split; [reflexivity |]. split; [lia |]. intros j Hj. lia.
    - destruct (pages_requests E maxPages 1 None [] []) as (k & Hle & Hreq & Hb).
      exists k. split; [exact Hreq |]. split; [exact Hle |].
      intros j Hj. replace j with (1 + (j - 1)) by lia. apply Hb. lia. }
  assert (exists k,
      requested r = seq 1 k /\
      1 <= k <= maxPages /\
      (forall j, 1 <= j < k -> perPage <= length (listing j)) /\
      (k < maxPages -> length (listing k) < perPage) /\
      repos_ret r = Some (concat_pages listing 1 k) /\
      err_ret r = None) as Hmain.
  { subst r. unfold fetchReposData. cbn [healthy new_request_err].
    destruct (pages_healthy listing maxPages 1 None [] [])
      as (k & Hle & Hpos & Heq & Hbefore & Hlast).
    exists k. rewrite Heq. cbn [ret requested repos_ret err_ret].
    repeat split; try reflexivity; try lia.
    - apply Hpos. unfold maxPages. lia.
    - intros j Hj. replace j with (1 + (j - 1)) by lia. apply Hbefore. lia.
    - intros Hlt. destruct (Hlast Hlt) as (d & -> & Hd). exact Hd. }
  split; [exact Hmain |].
  intros H1 H2. destruct Hmain as (k & Hreq & Hk & Hbefore & Hlast & Hrepos & _).
  assert (k = 2) as ->.
  { destruct (decide (k = 1)) as [->|Hk1].
    - unfold maxPages, perPage in Hlast. lia.
    - destruct (decide (k = 2)) as [->|Hk2]; [reflexivity |].
      pose proof (Hbefore 2 ltac:(lia)) as Hfull. unfold perPage in Hfull. lia. }
  rewrite Hreq, Hrepos. split; [reflexivity |].
  unfold concat_pages. cbn [seq map concat fmap option_fmap option_map].
  rewrite !length_app, H1, H2. reflexivity.
Qed.

Lemma lister_stops_at_first_short_page_150 :
  requested (fetchReposData (healthy listing150)) = [1; 2] /\
  length <$> repos_ret (fetchReposData (healthy listing150)) = Some 150.
Proof.
  apply (lister_stops_at_first_short_page listing150); reflexivity.
Defined.

(** The loop reads the environment at the pages [i], ..., [i+left-1] only. *)
Lemma pages_agree (E E' : env) :
  forall left i err repos reqs,
    agree_on E E' i left ->
    pages E' left i err repos reqs = pages E left i err repos reqs.
Proof.
  induction left as [|left IH]; intros i err repos reqs Hag; [reflexivity |].
  destruct (Hag 0 ltac:(lia)) as [Hc Hd]. rewrite Nat.add_0_r in Hc, Hd.
  cbn [pages]. rewrite Hc, Hd.
  assert (agree_on E E' (S i) left) as Hag'.
  { intros d Hlt. replace (S i + d) with (i + S d) by lia. apply Hag. lia. }
  destruct (ctx_done E i); [reflexivity |].
  destruct (client_do E i) as [e|code [e|p]]; try reflexivity.
  destruct (negb (Nat.eqb code StatusOK)); [reflexivity |].
  destruct (Nat.ltb (length p) perPage); [reflexivity |].
  apply IH, Hag'.
Qed.

Lemma length_concat_uniform {A : Type} (n : nat) (ps : list (list A)) :
  Forall (fun p => length p = n) ps -> length (concat ps) = length ps * n.
Proof.
  induction 1 as [|p ps Hp _ IH]; [reflexivity |].
  cbn [concat length]. rewrite length_app, Hp, IH. lia.
Qed.

(** C10.  When each of the [maxPages] pages comes back full,
    [fetchReposData] returns [maxPages * perPage] descriptors and a nil
    error after [maxPages] requests, and nothing in what it returns depends
    on what the listing holds beyond page [maxPages]: a listing that ends
    there and one that goes on yield the same outcome. *)
Theorem lister_truncates_silently (E : env) :
  new_request_err E = None ->
  (forall i, 1 <= i <= maxPages ->
     ctx_done E i = false /\
     exists p, client_do E i = Response StatusOK (Decoded p) /\
               length p = perPage) ->
  (exists l, fetchReposData E = ret (Some l) None (seq 1 maxPages) /\
             length l = maxPages * perPage) /\
  (forall E', new_request_err E' = None -> agree_on E E' 1 maxPages ->
              fetchReposData E' = fetchReposData E).
Proof.
  intros Hnew Hfull. split.
  - unfold fetchReposData. rewrite Hnew.
    destruct (pages_through_full E maxPages 0 1 None [] [])
      as (ps & Hlen & _ & Hps & Heq).
    { intros d Hd. destruct (Hfull (1 + d) ltac:(lia)) as (Hc & p & Hp & Hl).
      split; [exact Hc |]. exists p. split; [exact Hp | lia]. }
    rewrite Nat.add_0_r in Heq. rewrite Heq. cbn [pages app].
    exists (concat ps). split; [reflexivity |].
    rewrite <- Hlen. apply length_concat_uniform.
    apply Forall_lookup_2. intros d p Hd.
    pose proof (lookup_lt_Some _ _ _ Hd) as Hlt.
    destruct (Hfull (1 + d) ltac:(lia)) as (_ & q & Hq & Hl).
    rewrite (Hps d p Hd) in Hq. congruence.
  - intros E' Hnew' Hag. unfold fetchReposData. rewrite Hnew, Hnew'.
    apply pages_agree, Hag.
Qed.

Lemma lister_truncates_silently_witness :
  (exists l, fetchReposData (healthy endless)
             = ret (Some l) None (seq 1 maxPages) /\
             length l = maxPages * perPage) /\
  (forall E', new_request_err E' = None ->
              agree_on (healthy endless) E' 1 maxPages ->
              fetchReposData E' = fetchReposData (healthy endless)).
Proof.
  apply (lister_truncates_silently (healthy endless)).
  - reflexivity.
  - intros i _. split; [reflexivity |].
    exists (endless i). split; [reflexivity |].
    unfold endless. rewrite length_map, length_seq. reflexivity.
Defined.

(** When the [select] of iteration [i] finds the context done, after full
    pages only, the function returns a nil slice and a nil error. *)
Lemma lister_deadline_gives_nil_error (E : env) (i : nat) :
  new_request_err E = None ->
  1 <= i <= maxPages ->
  ctx_done E i = true ->
  (forall j, 1 <= j < i -> full_reply E j) ->
  fetchReposData E = ret None None (seq 1 (i - 1)).
Proof.
  intros Hnew Hi Hdone Hfull. unfold fetchReposData. rewrite Hnew.
  replace maxPages with ((i - 1) + S (maxPages - i)) by lia.
  destruct (pages_through_full E (i - 1) (S (maxPages - i)) 1 None [] [])
    as (ps & _ & _ & _ & Heq).
  { intros d Hd. apply Hfull. lia. }
  rewrite Heq. replace (1 + (i - 1)) with i by lia.
  cbn [pages]. rewrite Hdone. reflexivity.
Qed.

Lemma lister_deadline_gives_nil_error_witness :
  fetchReposData (expiring 3 endless) = ret None None (seq 1 (4 - 1)).
Proof.
  apply (lister_deadline_gives_nil_error (expiring 3 endless) 4).
  - reflexivity.
  - unfold maxPages. lia.
  - reflexivity.
  - intros j Hj. split.
    + unfold expiring. cbn [ctx_done]. apply Nat.ltb_ge. lia.
    + exists (endless j). split; [reflexivity |].
      unfold endless. rewrite length_map, length_seq. lia.
Defined.

(** C2.  With the deadline already fired at the first [select], whatever
    the server would have replied, [fetchReposData] issues no request and
    returns a nil slice together with a nil error: the [err] wrapped on
    line 228 is the nil [err] of line 214, and [errors.Wrap] of nil is nil. *)
Theorem lister_deadline_before_first_page (client : nat -> reply) :
  let r := fetchReposData (expired client) in
  requested r = [] /\ repos_ret r = None /\ err_ret r = None.
Proof. repeat split. Qed.

End ListerFacts.

(** * Properties of the pool and of the join barrier *)

Section PoolFacts.
Import Pool.

Lemma sum_list_with_insert {A : Type} (f : A -> nat) (l : list A)
    (j : nat) (x y : A) :
  l !! j = Some x ->
  sum_list_with f (<[j := y]> l) + f x = sum_list_with f l + f y.
Proof.
  revert j. induction l as [|a l IH]; intros [|j] H; simplify_eq/=.
  - lia.
  - specialize (IH j H). lia.
Qed.

Lemma sum_list_with_snoc {A : Type} (f : A -> nat) (l : list A) (x : A) :
  sum_list_with f (l ++ [x]) = sum_list_with f l + f x.
Proof. rewrite sum_list_with_app. cbn. lia. Qed.

Lemma in_flight_insert (ws : list worker) (j : nat) (w w' : worker) :
  ws !! j = Some w ->
  in_flight (<[j := w']> ws) ++ flight w ≡ₚ in_flight ws ++ flight w'.
Proof.
  unfold in_flight.
  revert j. induction ws as [|a ws IH]; intros [|j] H; simplify_eq/=.
  - rewrite <- !app_assoc.
    rewrite (Permutation_app_comm (flat_map flight ws) (flight w)).
    rewrite (Permutation_app_comm (flat_map flight ws) (flight w')).
    apply Permutation_app_swap_app.
  - specialize (IH j H). rewrite <- !app_assoc, IH. reflexivity.
Qed.

Lemma in_flight_snoc (ws : list worker) (w : worker) :
  in_flight (ws ++ [w]) = in_flight ws ++ flight w.
Proof. unfold in_flight. rewrite flat_map_app. cbn. rewrite app_nil_r. reflexivity. Qed.

Lemma elem_of_insert_inv {A : Type} (l : list A) (j : nat) (x y : A) :
  x ∈ <[j := y]> l -> x = y \/ x ∈ l.
Proof.
  revert j. induction l as [|a l IH]; intros [|j] H; cbn in H.
  - by right.
  - by right.
  - apply elem_of_cons in H as [->|H]; [by left | right; by apply elem_of_cons; right].
  - apply elem_of_cons in H as [->|H]; [right; by apply elem_of_cons; left |].
    destruct (IH j H) as [->|Hin]; [by left | right; by apply elem_of_cons; right].
Qed.

Ltac inv_close :=
  try rewrite !sum_list_with_snoc; try rewrite !in_flight_snoc;
  try rewrite !length_app; try rewrite !length_insert;
  cbn [owes flight worker_fuel length unsent map spawned] in *;
  try rewrite !app_nil_r in *;
  first [ done | lia | intuition (try congruence; try lia) ].

Ltac worker_update Hj w' :=
  let Hsum := fresh "Hsum" in
  let Hfl := fresh "Hfl" in
  pose proof (sum_list_with_insert owes _ _ _ w' Hj) as Hsum;
  pose proof (in_flight_insert _ _ _ w' Hj) as Hfl;
  cbn [owes flight] in Hsum, Hfl; rewrite ?app_nil_r in Hfl.

Ltac returned_in Hret :=
  let Hin := fresh "Hin" in
  intros Hin; apply elem_of_insert_inv in Hin as [Hin|Hin];
  [first [discriminate | auto] | auto].

Ltac flight_goal Hfl :=
  match goal with
  | |- context [flat_map flight ?ws] => fold (in_flight ws)
  end;
  rewrite ?map_app; cbn [map fst]; rewrite ?Hfl.

Ltac done_ok H Hw :=
  unfold wg_done in H; cbn in H; rewrite Hw in H.

Ltac fired H s' := apply (inj Some) in H; subst s'.

Ltac inv_start := constructor; cbn; try solve [inv_close].

Lemma invariant_step N repos s s' :
  invariant N repos s -> step N repos s s' -> invariant N repos s'.
Proof.
  intros [Hwg Hpool Hp Hsent Hatt Hcl Hbar Hfail Hret] [a Hfire].
  unfold fire in Hfire. destruct (panicked s) eqn:Hpan; [discriminate|].
  unfold owing in *.
  destruct a; cbn [fire_alive main_step] in Hfire.
  - unfold main_step in Hfire. destruct (main s) eqn:Hm.
    + fired Hfire s'. cbn [spawned] in Hpool.
      apply length_zero_iff_nil in Hpool. inv_start.
      all: rewrite Hpool in *; cbn in *; try solve [inv_close].
      destruct (persist s) as [[]|]; intuition (try congruence; try lia).
    + destruct (Nat.ltb_spec i N); fired Hfire s'; inv_start.
      intros Hin. apply elem_of_app in Hin as [Hin|Hin]; [auto |].
      apply list_elem_of_singleton in Hin. discriminate.
    + destruct rest; [|discriminate]. fired Hfire s'. inv_start.
    + destruct (wg s) eqn:Hw; [|discriminate]. fired Hfire s'. inv_start.
      intros _. split; [done |].
      destruct (persist s) as [[]|] eqn:Hps; [lia | done | by destruct Hfail |].
      assert (AtWait = AtStore) by (by apply Hp). discriminate.
    + discriminate.
  - destruct (main s) as [| |[|repo rest]| |] eqn:Hm; try discriminate.
    destruct (workers s !! j) as [[]|] eqn:Hj; try discriminate.
    fired Hfire s'. worker_update Hj (Cloning (CloneUrl repo)). inv_start.
    + cbn [unsent map] in Hsent. rewrite <- app_assoc. exact Hsent.
    + fold (in_flight (<[j:=Cloning (CloneUrl repo)]> (workers s))).
      rewrite Hfl, app_assoc, Hatt. reflexivity.
    + returned_in Hret.
  - destruct (workers s !! j) as [[]|] eqn:Hj; try discriminate.
    fired Hfire s'. worker_update Hj Selecting. inv_start.
    + flight_goal Hfl. exact Hatt.
    + returned_in Hret.
  - destruct (cancelled s) eqn:Hc; [|discriminate].
    destruct (workers s !! j) as [[]|] eqn:Hj; try discriminate.
    worker_update Hj Returned.
    destruct (wg s) eqn:Hw; [lia |]. done_ok Hfire Hw.
    fired Hfire s'. inv_start.
    flight_goal Hfl. exact Hatt.
  - destruct (closed s) eqn:Hc; [|discriminate].
    destruct (workers s !! j) as [[]|] eqn:Hj; try discriminate.
    worker_update Hj Returned.
    destruct (wg s) eqn:Hw; [lia |]. done_ok Hfire Hw.
    fired Hfire s'. inv_start.
    flight_goal Hfl. exact Hatt.
  - destruct (workers s !! j) as [[| |u|]|] eqn:Hj; try discriminate.
    worker_update Hj Selecting.
    fired Hfire s'. destruct err as [e|]; inv_start.
    all: try solve [returned_in Hret].
    all: fold (in_flight (<[j:=Selecting]> (workers s)));
      rewrite <- Hatt, <- Hfl, map_app; cbn [map fst];
      rewrite <- !app_assoc; apply Permutation_app_head, Permutation_app_comm.
  - destruct (persist s) as [[]|] eqn:Hps; try discriminate.
    destruct (wg s) eqn:Hw; [lia |]. done_ok Hfire Hw.
    fired Hfire s'. inv_start.
  - destruct (persist s) as [[]|] eqn:Hps; try discriminate.
    destruct (wg s) eqn:Hw; [lia |]. done_ok Hfire Hw.
    fired Hfire s'. inv_start.
  - destruct (cancelled s) eqn:Hc; [discriminate |].
    fired Hfire s'. inv_start.
Qed.
Lemma invariant_init N repos : invariant N repos init.
Proof.
  constructor; cbn; try done.
  all: try (intuition discriminate).
  intros H. by apply elem_of_nil in H.
Qed.

Lemma invariant_reachable N repos s :
  reachable N repos s -> invariant N repos s.
Proof.
  unfold reachable. revert s. apply rtc_ind_r.
  - apply invariant_init.
  - intros s1 s2 _ Hstep IH. eapply invariant_step; eassumption.
Qed.

Lemma run_rtc N repos acts s s' :
  run N repos acts s = Some s' -> rtc (step N repos) s s'.
Proof.
  revert s. induction acts as [|a acts IH]; intros s H; cbn in H.
  - injection H as <-. apply rtc_refl.
  - destruct (fire N repos a s) as [s1|] eqn:Hf; [|discriminate].
    eapply rtc_l; [exists a; exact Hf | apply IH, H].
Qed.

Lemma run_reachable N repos acts s :
  run N repos acts init = Some s -> reachable N repos s.
Proof. apply run_rtc. Qed.

Lemma owes_nothing_all_returned (ws : list worker) :
  sum_list_with owes ws = 0 -> forall w, w ∈ ws -> w = Returned.
Proof.
  induction ws as [|a ws IH]; intros Hsum w Hin.
  - by apply elem_of_nil in Hin.
  - cbn in Hsum. apply elem_of_cons in Hin as [->|Hin].
    + destruct a; cbn in Hsum; done || lia.
    + apply IH; [lia | exact Hin].
Qed.

Lemma all_returned_no_flight (ws : list worker) :
  (forall w, w ∈ ws -> w = Returned) -> in_flight ws = [].
Proof.
  induction ws as [|a ws IH]; intros Hall; [reflexivity |].
  unfold in_flight in *. cbn.
  rewrite (Hall a) by (apply elem_of_cons; by left). cbn.
  apply IH. intros w Hw. apply Hall, elem_of_cons. by right.
Qed.

Example packaged_state_main : main packaged_state = AtPackage.
Proof. vm_compute. reflexivity. Qed.
Example deadlocked_state_main : main deadlocked_state = AtSend (drop 3 ten_repos).
Proof. vm_compute. reflexivity. Qed.

(** Every step but the deadline and the persister's panic uses up fuel. *)
Lemma quiet_step_fuel N repos s s' :
  quiet_step N repos s s' -> fuel N repos s' < fuel N repos s.
Proof.
  intros (a & Hq & Hfire). unfold fire in Hfire.
  destruct (panicked s); [discriminate |].
  unfold fuel.
  destruct a; try discriminate Hq; cbn [fire_alive] in Hfire.
  - unfold main_step in Hfire. destruct (main s) eqn:Hm.
    + fired Hfire s'. cbn. destruct (persist s) as [[]|]; lia.
    + destruct (Nat.ltb_spec i N); fired Hfire s'; cbn.
      * rewrite sum_list_with_snoc. cbn. lia.
      * lia.
    + destruct rest; [|discriminate]. fired Hfire s'. cbn. lia.
    + destruct (wg s); [|discriminate]. fired Hfire s'. cbn. lia.
    + discriminate.
  - destruct (main s) as [| |[|repo rest]| |] eqn:Hm; try discriminate.
    destruct (workers s !! j) as [[]|] eqn:Hj; try discriminate.
    pose proof (sum_list_with_insert worker_fuel _ _ _
                  (Cloning (CloneUrl repo)) Hj) as Hsum.
    fired Hfire s'. cbn in *. lia.
  - destruct (workers s !! j) as [[]|] eqn:Hj; try discriminate.
    pose proof (sum_list_with_insert worker_fuel _ _ _ Selecting Hj) as Hsum.
    fired Hfire s'. cbn in *. lia.
  - destruct (cancelled s); [|discriminate].
    destruct (workers s !! j) as [[]|] eqn:Hj; try discriminate.
    pose proof (sum_list_with_insert worker_fuel _ _ _ Returned Hj) as Hsum.
    fired Hfire s'. unfold wg_done. cbn in *. destruct (wg s); cbn; lia.
  - destruct (closed s); [|discriminate].
    destruct (workers s !! j) as [[]|] eqn:Hj; try discriminate.
    pose proof (sum_list_with_insert worker_fuel _ _ _ Returned Hj) as Hsum.
    fired Hfire s'. unfold wg_done. cbn in *. destruct (wg s); cbn; lia.
  - destruct (workers s !! j) as [[| |u|]|] eqn:Hj; try discriminate.
    pose proof (sum_list_with_insert worker_fuel _ _ _ Selecting Hj) as Hsum.
    fired Hfire s'. destruct err; cbn in *; lia.
  - destruct (persist s) as [[]|] eqn:Hps; try discriminate.
    fired Hfire s'. unfold wg_done. cbn. destruct (wg s); cbn; lia.
Qed.

Lemma quiet_step_sn N repos s : sn (quiet_step N repos) s.
Proof.
  remember (fuel N repos s) as n eqn:Hn. revert s Hn.
  induction n as [n IH] using lt_wf_ind. intros s ->.
  constructor. intros s' Hstep. unfold flip in Hstep.
  eapply IH; [apply quiet_step_fuel, Hstep | reflexivity].
Qed.

(** Without the deadline and without a panic, no step brings either about. *)
Lemma quiet_step_calm N repos s s' :
  invariant N repos s ->
  cancelled s = false -> panicked s = None ->
  quiet_step N repos s s' ->
  cancelled s' = false /\ panicked s' = None.
Proof.
  intros [Hwg _ _ _ _ _ _ _ _] Hc Hpan (a & Hq & Hfire).
  unfold fire in Hfire. rewrite Hpan in Hfire. unfold owing in Hwg.
  destruct a; try discriminate Hq; cbn [fire_alive] in Hfire.
  - unfold main_step in Hfire. destruct (main s) as [|i|[|? ?]| |];
      try discriminate; try (fired Hfire s'; by cbn).
    + destruct (Nat.ltb i N); fired Hfire s'; by cbn.
    + destruct (wg s); [|discriminate]. fired Hfire s'. by cbn.
  - destruct (main s) as [| |[|repo rest]| |]; try discriminate.
    destruct (workers s !! j) as [[]|]; try discriminate.
    fired Hfire s'. by cbn.
  - destruct (workers s !! j) as [[]|]; try discriminate.
    fired Hfire s'. by cbn.
  - rewrite Hc in Hfire. discriminate.
  - destruct (closed s); [|discriminate].
    destruct (workers s !! j) as [[]|] eqn:Hj; try discriminate.
    worker_update Hj Returned.
    destruct (wg s) eqn:Hw; [lia |]. done_ok Hfire Hw.
    fired Hfire s'. by cbn.
  - destruct (workers s !! j) as [[| |u|]|]; try discriminate.
    fired Hfire s'. by destruct err.
  - destruct (persist s) as [[]|] eqn:Hps; try discriminate.
    destruct (wg s) eqn:Hw; [lia |]. done_ok Hfire Hw.
    fired Hfire s'. by cbn.
Qed.

Lemma owing_worker (ws : list worker) :
  sum_list_with owes ws <> 0 ->
  exists j w, ws !! j = Some w /\ w <> Returned.
Proof.
  induction ws as [|a ws IH]; intros Hsum; [done |].
  destruct a; try (by exists 0; eexists; split; [reflexivity | done]).
  destruct IH as (j & w & Hj & Hw); [exact Hsum |].
  exists (S j), w. by split.
Qed.

(** Without the deadline and without a panic, with one worker or more,
    some goroutine can move as long as the barrier has not been passed. *)
Lemma quiet_progress N repos s :
  1 <= N ->
  invariant N repos s ->
  cancelled s = false -> panicked s = None ->
  main s <> AtPackage ->
  exists s', quiet_step N repos s s'.
Proof.
  intros HN [Hwg Hpool Hp Hsent Hatt Hcl Hbar Hfail Hret] Hc Hpan Hm.
  assert (forall a, quiet a = true ->
            is_Some (fire_alive N repos a s) ->
            exists s', quiet_step N repos s s') as Hgo.
  { intros a Hq [s' Hs']. exists s', a. split; [exact Hq |].
    unfold fire. by rewrite Hpan. }
  assert (forall j w, workers s !! j = Some w -> w <> Returned ->
            closed s = true ->
            exists s', quiet_step N repos s s') as Hworker.
  { intros j w Hj Hw Hclosed. destruct w; [| | |done].
    - apply (Hgo (WStart j)); [done |]. cbn. by rewrite Hj.
    - apply (Hgo (WClosed j)); [done |]. cbn. by rewrite Hclosed, Hj.
    - apply (Hgo (WCloneReturns j None)); [done |]. cbn. by rewrite Hj. }
  destruct (main s) as [|i|[|repo rest]| |] eqn:Hmain; [| | | | |done].
  - apply (Hgo Main); [done |]. unfold fire_alive, main_step. by rewrite Hmain.
  - apply (Hgo Main); [done |]. unfold fire_alive, main_step. rewrite Hmain.
    by destruct (Nat.ltb i N).
  - apply (Hgo Main); [done |]. unfold fire_alive, main_step. by rewrite Hmain.
  - cbn in Hpool.
    destruct (workers s) as [|w ws] eqn:Hws; [cbn in Hpool; lia |].
    destruct w.
    + apply (Hgo (WStart 0)); [done |]. cbn. by rewrite Hws.
    + apply (Hgo (Handover 0)); [done |]. cbn. by rewrite Hmain, Hws.
    + apply (Hgo (WCloneReturns 0 None)); [done |]. cbn. by rewrite Hws.
    + destruct Hret as [Hret|Hret]; [apply elem_of_cons; by left | congruence |].
      apply Hcl in Hret as [?|?]; discriminate.
  - assert (closed s = true) as Hclosed by (apply Hcl; by left).
    destruct (wg s) eqn:Hw.
    + apply (Hgo Main); [done |]. unfold fire_alive, main_step.
      by rewrite Hmain, Hw.
    + unfold owing in Hwg.
      destruct (persist s) as [[]|] eqn:Hps;
        try (destruct (owing_worker (workers s)) as (j & w & Hj & Hne);
             [lia | by eapply Hworker]).
      apply (Hgo PSaved); [done |]. cbn. by rewrite Hps.
Qed.

Lemma quiet_step_step N repos s s' :
  quiet_step N repos s s' -> step N repos s s'.
Proof. intros (a & _ & H). by exists a. Qed.

(** What the states of a run without deadline and panic share. *)
Lemma quiet_run_calm N repos s s' :
  reachable N repos s ->
  cancelled s = false -> panicked s = None ->
  rtc (quiet_step N repos) s s' ->
  reachable N repos s' /\ cancelled s' = false /\ panicked s' = None.
Proof.
  intros Hreach Hc Hpan. revert s'. apply rtc_ind_r; [done |].
  intros s2 s3 _ Hstep (Hr & Hc' & Hp').
  destruct (quiet_step_calm N repos s2 s3) as [? ?];
    [by apply invariant_reachable | done | done | done |].
  split; [|done].
  eapply rtc_r; [exact Hr | by apply quiet_step_step].
Qed.

(** C5, as the code has it.  In every reachable state of a pool of
    [N >= 1] workers fed with the listing [reposData]:
    - what has been handed over, followed by what is still to send, is the
      list of clone URLs of the listing: hand-over is in listing order,
      without repetition or gap;
    - every URL handed over is, once, either in a clone that has returned
      (failed or not) or in a clone in flight;
    - past the barrier the clones that returned are, up to order, the
      clone URLs of the listing, one attempt for each of the [M] entries;
    - while the deadline has not fired (and the persister has not
      panicked), every run from here without these two events is finite
      and can only end past the barrier. *)
Theorem pool_attempts_every_url_once_unless_deadline N reposData s :
  1 <= N ->
  reachable N reposData s ->
  sent s ++ map CloneUrl (unsent reposData (main s)) = map CloneUrl reposData /\
  map fst (attempts s) ++ in_flight (workers s) ≡ₚ sent s /\
  (main s = AtPackage ->
     map fst (attempts s) ≡ₚ map CloneUrl reposData /\
     length (attempts s) = length reposData) /\
  (cancelled s = false -> panicked s = None ->
     sn (quiet_step N reposData) s /\
     forall s', rtc (quiet_step N reposData) s s' ->
                nf (quiet_step N reposData) s' -> main s' = AtPackage).
Proof.
  intros HN Hreach.
  pose proof (invariant_reachable _ _ _ Hreach) as Hinv.
  destruct Hinv as [Hwg Hpool Hp Hsent Hatt Hcl Hbar Hfail Hret].
  split; [exact Hsent |]. split; [exact Hatt |]. split.
  - intros Hm.
    destruct (Hbar Hm) as [Hw0 Hsaved].
    unfold owing in Hwg. rewrite Hw0, Hsaved in Hwg.
    assert (forall w, w ∈ workers s -> w = Returned) as Hall.
    { apply owes_nothing_all_returned. lia. }
    rewrite (all_returned_no_flight _ Hall), app_nil_r in Hatt.
    rewrite Hm in Hsent. cbn in Hsent. rewrite app_nil_r in Hsent.
    rewrite Hsent in Hatt. split; [exact Hatt |].
    apply Permutation_length in Hatt. by rewrite !length_map in Hatt.
  - intros Hc Hpan. split; [apply quiet_step_sn |].
    intros s' Hrun Hnf.
    destruct (quiet_run_calm _ _ _ _ Hreach Hc Hpan Hrun) as (Hr' & Hc' & Hp').
    destruct (main s') eqn:Hm'; try reflexivity; exfalso; apply Hnf;
      (apply quiet_progress;
       [exact HN | by apply invariant_reachable | done | done | congruence]).
Qed.

Lemma pool_attempts_every_url_once_unless_deadline_witness :
  sent packaged_state
    ++ map CloneUrl (unsent two_repos (main packaged_state))
  = map CloneUrl two_repos /\
  map fst (attempts packaged_state) ++ in_flight (workers packaged_state)
    ≡ₚ sent packaged_state /\
  (main packaged_state = AtPackage ->
     map fst (attempts packaged_state) ≡ₚ map CloneUrl two_repos /\
     length (attempts packaged_state) = length two_repos) /\
  (cancelled packaged_state = false -> panicked packaged_state = None ->
     sn (quiet_step cloningWorkers two_repos) packaged_state /\
     forall s', rtc (quiet_step cloningWorkers two_repos) packaged_state s' ->
                nf (quiet_step cloningWorkers two_repos) s' ->
                main s' = AtPackage).
Proof.
  apply (pool_attempts_every_url_once_unless_deadline
           cloningWorkers two_repos packaged_state).
  - unfold cloningWorkers. lia.
  - apply (run_reachable _ _ full_schedule). vm_compute. reflexivity.
Defined.

(** A state in which every worker has returned and the main goroutine is
    blocked in its send can make no step. *)
Lemma blocked_send_stuck N repos s repo rest :
  main s = AtSend (repo :: rest) ->
  (forall w, w ∈ workers s -> w = Returned) ->
  persist s = Some Saved ->
  cancelled s = true ->
  stuck N repos s.
Proof.
  intros Hm Hall Hps Hc a. unfold fire.
  destruct (panicked s); [reflexivity |].
  assert (forall j w, workers s !! j = Some w -> w = Returned) as Hlk.
  { intros j w Hj. apply Hall. eapply list_elem_of_lookup_2, Hj. }
  destruct a; cbn [fire_alive].
  - unfold main_step. by rewrite Hm.
  - rewrite Hm. destruct (workers s !! j) as [w|] eqn:Hj; [|done].
    by rewrite (Hlk _ _ Hj).
  - destruct (workers s !! j) as [w|] eqn:Hj; [|done].
    by rewrite (Hlk _ _ Hj).
  - destruct (workers s !! j) as [w|] eqn:Hj;
      [rewrite (Hlk _ _ Hj) |]; by destruct (cancelled s).
  - destruct (workers s !! j) as [w|] eqn:Hj;
      [rewrite (Hlk _ _ Hj) |]; by destruct (closed s).
  - destruct (workers s !! j) as [w|] eqn:Hj; [|done].
    by rewrite (Hlk _ _ Hj).
  - by rewrite Hps.
  - by rewrite Hps.
  - by rewrite Hc.
Qed.

Lemma stuck_stays N repos s s' :
  stuck N repos s -> rtc (step N repos) s s' -> s' = s.
Proof.
  intros Hstuck Hrun. destruct Hrun as [|s1 s2 s3 [a Ha] _]; [reflexivity |].
  rewrite Hstuck in Ha. discriminate.
Qed.

Lemma all_returned_decide (ws : list worker) :
  forallb (fun w => negb (Nat.eqb (owes w) 1)) ws = true ->
  forall w, w ∈ ws -> w = Returned.
Proof.
  induction ws as [|a ws IH]; intros H w Hin.
  - by apply elem_of_nil in Hin.
  - cbn in H. apply andb_prop in H as [Ha Hws].
    apply elem_of_cons in Hin as [->|Hin]; [by destruct a | by apply IH].
Qed.

(** The claim of C5 read for every run: with one repository listed and
    the deadline firing before a worker has received it, the five workers
    return, the program can make no further step, and of the one URL of the
    listing none has been handed over or attempted. *)
Lemma pool_deadline_leaves_url_unattempted :
  reachable cloningWorkers [repo_n 0] starved_state /\
  stuck cloningWorkers [repo_n 0] starved_state /\
  length [repo_n 0] = 1 /\
  sent starved_state = [] /\ attempts starved_state = [].
Proof.
  split; [apply (run_reachable _ _ early_deadline_schedule); by vm_compute |].
  split; [|by vm_compute].
  apply (blocked_send_stuck _ _ _ (repo_n 0) []); try by vm_compute.
  apply all_returned_decide. by vm_compute.
Qed.

(** C1.  Ten repositories, three handed to workers, one of these clones
    completed when the deadline fires: the two clones in flight fail, each
    worker's next select takes [<-ctx.Done()] and returns, and the main
    goroutine stays in the send of line 189 with seven items left.  The
    program can make no step from there; [wg.Wait()] is never passed, so no
    archive is produced. *)
Theorem deadline_after_three_of_ten_deadlocks :
  reachable cloningWorkers ten_repos deadlocked_state /\
  length (sent deadlocked_state) = 3 /\
  map fst (attempts deadlocked_state) ≡ₚ sent deadlocked_state /\
  main deadlocked_state = AtSend (drop 3 ten_repos) /\
  stuck cloningWorkers ten_repos deadlocked_state /\
  (forall s', rtc (step cloningWorkers ten_repos) deadlocked_state s' ->
              main s' <> AtPackage).
Proof.
  assert (stuck cloningWorkers ten_repos deadlocked_state) as Hstuck.
  { apply (blocked_send_stuck _ _ _ (repo_n 3) (drop 4 ten_repos));
      try by vm_compute.
    apply all_returned_decide. by vm_compute. }
  split; [apply (run_reachable _ _ deadline_schedule); by vm_compute |].
  split; [by vm_compute |].
  split; [vm_compute; reflexivity |].
  split; [by vm_compute |].
  split; [exact Hstuck |].
  intros s' Hrun. rewrite (stuck_stays _ _ _ _ Hstuck Hrun). by vm_compute.
Qed.

(** C8.  In every state the program reaches with the main goroutine past
    [wg.Wait()], all [N] workers have been started and have returned, the
    persister has written its file and returned, and the only thing that
    can still happen beside the main goroutine is the deadline firing: no
    goroutine that writes to the working directory is left. *)
Theorem packaging_waits_for_pool_and_persister N repos s :
  reachable N repos s ->
  main s = AtPackage ->
  length (workers s) = N /\
  (forall w, w ∈ workers s -> w = Returned) /\
  persist s = Some Saved /\
  (forall a s', fire N repos a s = Some s' -> a = Deadline).
Proof.
  intros Hreach Hm. destruct (invariant_reachable _ _ _ Hreach)
    as [Hwg Hpool Hp Hsent Hatt Hcl Hbar Hfail Hret].
  destruct (Hbar Hm) as [Hw0 Hsaved].
  rewrite Hm in Hpool. cbn in Hpool.
  unfold owing in Hwg. rewrite Hw0, Hsaved in Hwg.
  assert (forall w, w ∈ workers s -> w = Returned) as Hall.
  { apply owes_nothing_all_returned. lia. }
  repeat split; try assumption.
  intros a s' Hfire. unfold fire in Hfire.
  destruct (panicked s); [discriminate |].
  assert (forall j w, workers s !! j = Some w -> w = Returned) as Hlk.
  { intros j w Hj. apply Hall. eapply list_elem_of_lookup_2, Hj. }
  destruct a; cbn [fire_alive] in Hfire; try reflexivity.
  - unfold main_step in Hfire. rewrite Hm in Hfire. discriminate.
  - rewrite Hm in Hfire. discriminate.
  - destruct (workers s !! j) as [w|] eqn:Hj; [|discriminate].
    rewrite (Hlk _ _ Hj) in Hfire. discriminate.
  - destruct (workers s !! j) as [w|] eqn:Hj;
      [rewrite (Hlk _ _ Hj) in Hfire |]; by destruct (cancelled s).
  - destruct (workers s !! j) as [w|] eqn:Hj;
      [rewrite (Hlk _ _ Hj) in Hfire |]; by destruct (closed s).
  - destruct (workers s !! j) as [w|] eqn:Hj; [|discriminate].
    rewrite (Hlk _ _ Hj) in Hfire. discriminate.
  - rewrite Hsaved in Hfire. discriminate.
  - rewrite Hsaved in Hfire. discriminate.
Qed.

Lemma packaging_waits_for_pool_and_persister_witness :
  length (workers packaged_state) = cloningWorkers /\
  (forall w, w ∈ workers packaged_state -> w = Returned) /\
  persist packaged_state = Some Saved /\
  (forall a s', fire cloningWorkers two_repos a packaged_state = Some s' ->
                a = Deadline).
Proof.
  apply (packaging_waits_for_pool_and_persister
           cloningWorkers two_repos packaged_state).
  - apply (run_reachable _ _ full_schedule). vm_compute. reflexivity.
  - vm_compute. reflexivity.
Defined.

(** Which actions are enabled depends on the control fields only. *)
Lemma fire_control_some N repos a s1 s2 :
  control s1 = control s2 ->
  is_Some (fire N repos a s1) -> is_Some (fire N repos a s2).
Proof.
  unfold control. intros Hc. injection Hc as Hm Hw Hcan Hcl Hws Hps Hpan.
  unfold fire, fire_alive, main_step.
  rewrite <- Hm, <- Hw, <- Hcan, <- Hcl, <- Hws, <- Hps, <- Hpan.
  intros H. destruct (panicked s1); [exact H |].
  destruct a; repeat case_match; try done; by eexists.
Qed.

Lemma fire_control N repos a s1 s2 :
  control s1 = control s2 ->
  is_Some (fire N repos a s1) <-> is_Some (fire N repos a s2).
Proof. intros Hc. split; by apply fire_control_some. Qed.

(** C7.  When the clone of worker [j] returns an error [e], the worker
    records the attempt, prints a line that holds the URL, and is back at
    its select: it has not returned, no other worker or goroutine has
    changed, the process has not panicked, and the state differs from the
    one a successful clone leaves only in what was recorded and printed,
    so that exactly the same actions are enabled afterwards. *)
Theorem clone_failure_is_logged_and_absorbed N repos s j e s' :
  fire N repos (WCloneReturns j (Some e)) s = Some s' ->
  exists u s_ok,
    workers s !! j = Some (Cloning u) /\
    attempts s' = attempts s ++ [(u, Some e)] /\
    stdout s' = stdout s ++ [clone_error_line u e] /\
    clone_error_line u e
      = (newline +:+ "error cloning ") +:+ u +:+ (":" +:+ e +:+ newline) /\
    workers s' !! j = Some Selecting /\
    (forall k, k <> j -> workers s' !! k = workers s !! k) /\
    main s' = main s /\ closed s' = closed s /\ wg s' = wg s /\
    sent s' = sent s /\ panicked s' = None /\
    fire N repos (WCloneReturns j None) s = Some s_ok /\
    control s' = control s_ok /\
    (forall a, is_Some (fire N repos a s') <-> is_Some (fire N repos a s_ok)).
Proof.
  intros Hfire. unfold fire in Hfire.
  destruct (panicked s) eqn:Hpan; [discriminate |].
  cbn [fire_alive] in Hfire.
  destruct (workers s !! j) as [[| |u|]|] eqn:Hj; try discriminate.
  fired Hfire s'.
  exists u,
    (push_attempt u None (set_workers (<[j:=Selecting]> (workers s)) s)).
  assert (fire N repos (WCloneReturns j None) s
          = Some (push_attempt u None
                    (set_workers (<[j:=Selecting]> (workers s)) s))) as Hok.
  { unfold fire. rewrite Hpan. cbn [fire_alive]. by rewrite Hj. }
  split; [reflexivity |]. cbn.
  repeat split; try done.
  - apply list_lookup_insert_eq. by eapply lookup_lt_Some.
  - intros k Hk. by apply list_lookup_insert_ne.
  - by apply fire_control_some.
  - by apply fire_control_some.
Qed.

Lemma clone_failure_is_logged_and_absorbed_witness :
  fire cloningWorkers two_repos
    (WCloneReturns 0 (Some "repository not found")) cloning_state
  = Some failed_state /\
  exists u s_ok,
    workers cloning_state !! 0 = Some (Cloning u) /\
    attempts failed_state
      = attempts cloning_state ++ [(u, Some "repository not found")] /\
    stdout failed_state
      = stdout cloning_state ++ [clone_error_line u "repository not found"] /\
    clone_error_line u "repository not found"
      = (newline +:+ "error cloning ") +:+ u
        +:+ (":" +:+ "repository not found" +:+ newline) /\
    workers failed_state !! 0 = Some Selecting /\
    (forall k, k <> 0 -> workers failed_state !! k = workers cloning_state !! k) /\
    main failed_state = main cloning_state /\
    closed failed_state = closed cloning_state /\
    wg failed_state = wg cloning_state /\
    sent failed_state = sent cloning_state /\
    panicked failed_state = None /\
    fire cloningWorkers two_repos (WCloneReturns 0 None) cloning_state
      = Some s_ok /\
    control failed_state = control s_ok /\
    (forall a, is_Some (fire cloningWorkers two_repos a failed_state)
               <-> is_Some (fire cloningWorkers two_repos a s_ok)).
Proof.
  split; [vm_compute; reflexivity |].
  apply (clone_failure_is_logged_and_absorbed cloningWorkers two_repos
           cloning_state 0 "repository not found" failed_state).
  vm_compute. reflexivity.
Defined.

End PoolFacts.

(** * Properties of the Packager *)

Section PackagerFacts.
Import Packager.

Lemma IsDir_Dir perm es : IsDir (Dir perm es) = true.
Proof.
  unfold IsDir, Mode. rewrite Z.land_lor_distr_l.
  change (Z.land ModeDir ModeDir) with ModeDir.
  destruct (Z.eqb_spec (Z.lor ModeDir (Z.land (Z.land perm ModePerm) ModeDir)) 0)
    as [H0|_]; [|reflexivity].
  apply Z.lor_eq_0_iff in H0 as [H0 _]. discriminate H0.
Qed.

Lemma perm_has_no_type_bit perm (b : Z) :
  Z.land ModePerm b = 0%Z -> Z.land (Z.land perm ModePerm) b = 0%Z.
Proof. intros H. by rewrite <- Z.land_assoc, H, Z.land_0_r. Qed.

Lemma IsDir_File perm data : IsDir (File perm data) = false.
Proof. unfold IsDir, Mode. by rewrite perm_has_no_type_bit. Qed.

Lemma File_not_symlink perm data :
  Z.eqb (Z.land (Mode (File perm data)) ModeSymlink) ModeSymlink = false.
Proof. unfold Mode. by rewrite perm_has_no_type_bit. Qed.

(** The loop inside [walkDir] is [walkAll]. *)
Lemma walkDir_Dir F root path name perm es w :
  walkDir F root path name (Dir perm es) w =
  match F OpReadDir path with
  | Some e => (w, Some e)
  | None => walkAll F root path es w
  end.
Proof.
  cbn [walkDir]. unfold visit at 1. rewrite IsDir_Dir.
  destruct (F OpReadDir path); [reflexivity |].
  revert w. induction es as [|[name1 d1] es IH]; intros w; [reflexivity |].
  cbn [walkAll]. destruct (walkDir F root (Join path name1) name1 d1 w)
    as [w' [e|]]; [reflexivity | apply IH].
Qed.

Lemma symlinks_Dir path perm es :
  symlinks path (Dir perm es) = symlinks_all path es.
Proof.
  cbn [symlinks]. induction es as [|[name1 d1] es IH]; [reflexivity |].
  cbn [symlinks_all]. by rewrite IH.
Qed.

Lemma walkAll_records F root path es :
  Forall (fun x => forall path name w w',
            walkDir F root path name x.2 w = (w', None) ->
            exists added, w' = w ++ added /\
                          records_links path (symlinks path x.2) added) es ->
  forall w w',
    walkAll F root path es w = (w', None) ->
    exists added, w' = w ++ added /\
                  records_links path (symlinks_all path es) added.
Proof.
  induction 1 as [|[name1 d1] es Hd _ IH]; intros w w' Hwalk; cbn in Hwalk.
  - injection Hwalk as <-. exists []. split; [by rewrite app_nil_r |].
    intros p t Hin. by apply elem_of_nil in Hin.
  - destruct (walkDir F root (Join path name1) name1 d1 w) as [w1 [e|]] eqn:Hw1;
      [discriminate |].
    destruct (Hd _ _ _ _ Hw1) as (a1 & -> & Hrec1).
    destruct (IH _ _ Hwalk) as (a2 & -> & Hrec2).
    exists (a1 ++ a2). split; [by rewrite app_assoc |].
    intros p t Hin. cbn [symlinks_all] in Hin.
    apply elem_of_app in Hin as [Hin|Hin].
    + destruct (Hrec1 p t Hin) as (e & He & Hr). exists e.
      split; [apply elem_of_app; by left | exact Hr].
    + destruct (Hrec2 p t Hin) as (e & He & Hr). exists e.
      split; [apply elem_of_app; by right | exact Hr].
Qed.

Lemma walkDir_records F root n :
  forall path name w w',
    walkDir F root path name n w = (w', None) ->
    exists added, w' = w ++ added /\
                  records_links path (symlinks path n) added.
Proof.
  induction n as [perm data|target|perm es IH] using node_rect_entries;
    intros path name w w' Hwalk.
  - exists (drop (length w) w'). split.
    + cbn [walkDir] in Hwalk. unfold visit in Hwalk.
      rewrite IsDir_File, File_not_symlink in Hwalk.
      repeat case_match; simplify_eq; by rewrite drop_app_length.
    + intros p t Hin. by apply elem_of_nil in Hin.
  - cbn [walkDir] in Hwalk. unfold visit in Hwalk.
    change (IsDir (Symlink target)) with false in Hwalk.
    change (Z.eqb (Z.land (Mode (Symlink target)) ModeSymlink) ModeSymlink)
      with true in Hwalk.
    cbn match in Hwalk.
    repeat case_match; simplify_eq.
    eexists. split; [reflexivity |].
    intros p t Hin. cbn in Hin. apply list_elem_of_singleton in Hin.
    injection Hin as -> ->.
    eexists. split; [by apply list_elem_of_singleton |].
    repeat split.
  - rewrite walkDir_Dir in Hwalk.
    destruct (F OpReadDir path); [discriminate |].
    rewrite symlinks_Dir. eapply walkAll_records; eassumption.
Qed.

(** C9.  When [fillZipWriter] returns without error, every symbolic link
    of the working directory has an entry in the archive that carries the
    symlink mode bit, is stored as it is, and whose payload is the target
    string of the link: the link is read with [Readlink], not followed. *)
Theorem symlinks_are_recorded_with_target F root tree w :
  fillZipWriter F root tree [] = (w, None) ->
  forall path target,
    (path, target) ∈ symlinks root tree ->
    exists e, e ∈ w /\
              HName (header e) = path /\
              Z.land (HMode (header e)) ModeSymlink = ModeSymlink /\
              payload e = target /\
              Method (header e) = Store.
Proof.
  intros Hfill path target Hin.
  destruct (walkDir_records F root tree _ _ _ _ Hfill) as (added & -> & Hrec).
  destruct (Hrec path target Hin) as (e & He & (Hn & Hm & Hp) & Hs).
  exists e. by rewrite app_nil_l.
Qed.

Lemma symlinks_are_recorded_with_target_witness :
  ("org-archive-2024/myrepo/latest", "README.md")
    ∈ symlinks sample_root sample_tree /\
  exists e, e ∈ (fillZipWriter no_fault sample_root sample_tree []).1 /\
            HName (header e) = "org-archive-2024/myrepo/latest" /\
            Z.land (HMode (header e)) ModeSymlink = ModeSymlink /\
            payload e = "README.md" /\
            Method (header e) = Store.
Proof.
  assert (("org-archive-2024/myrepo/latest", "README.md")
            ∈ symlinks sample_root sample_tree) as Hin.
  { vm_compute. apply list_elem_of_singleton. reflexivity. }
  split; [exact Hin |].
  apply (symlinks_are_recorded_with_target no_fault sample_root sample_tree
           (fillZipWriter no_fault sample_root sample_tree []).1);
    [vm_compute; reflexivity | exact Hin].
Defined.

Lemma append_assoc (a b c : string) : (a +:+ b) +:+ c = a +:+ (b +:+ c).
Proof.
  induction a as [|x a IH]; [reflexivity |].
  change (String x ((a +:+ b) +:+ c) = String x (a +:+ (b +:+ c))).
  by f_equal.
Qed.

Lemma append_empty_r (s : string) : s +:+ "" = s.
Proof.
  induction s as [|a s IH]; [reflexivity |].
  change (String a (s +:+ "") = String a s). by f_equal.
Qed.

Lemma strip_prefix_append (p s : string) : strip_prefix p (p +:+ s) = Some s.
Proof.
  induction p as [|a p IH]; [reflexivity |].
  change (String a p +:+ s) with (String a (p +:+ s)).
  cbn [strip_prefix]. by rewrite Ascii.eqb_refl.
Qed.

Lemma Rel_below root rest :
  below rest -> exists rel, Rel root (root +:+ rest) = inl rel.
Proof.
  intros [->|[r ->]]; unfold Rel; rewrite strip_prefix_append; eauto.
Qed.

Lemma below_Join root rest name1 :
  below rest ->
  exists rest', Join (root +:+ rest) name1 = root +:+ rest' /\ below rest'.
Proof.
  intros Hb. exists (rest +:+ "/" +:+ name1). split.
  - unfold Join. by rewrite append_assoc.
  - right. destruct Hb as [->|[r ->]]; eexists; reflexivity.
Qed.

(** Without a failing call the walk goes through. *)
Lemma walkDir_no_fault root n :
  forall rest name w,
    below rest ->
    exists w', walkDir no_fault root (root +:+ rest) name n w = (w', None).
Proof.
  induction n as [perm data|target|perm es IH] using node_rect_entries;
    intros rest name w Hb.
  - cbn [walkDir]. unfold visit.
    rewrite IsDir_File, File_not_symlink. cbn [no_fault].
    destruct (Rel_below root rest Hb) as [rel ->]. eauto.
  - cbn. eauto.
  - rewrite walkDir_Dir. cbn [no_fault].
    revert w. induction IH as [|[name1 d1] es Hd _ IHes]; intros w;
      cbn [walkAll].
    + eauto.
    + destruct (below_Join root rest name1 Hb) as (rest' & -> & Hb').
      cbn [snd] in Hd.
      destruct (Hd rest' name1 w Hb') as [w1 ->]. apply IHes.
Qed.

Lemma fillZipWriter_no_fault root tree :
  exists w, fillZipWriter no_fault root tree [] = (w, None).
Proof.
  unfold fillZipWriter.
  destruct (walkDir_no_fault root tree "" root [] (or_introl eq_refl))
    as [w Hw].
  rewrite append_empty_r in Hw. by exists w.
Qed.

(** C3.  On the sample working directory the entry of the regular file
    [myrepo/README.md] is named by its path relative to the root, and the
    entry of the link [myrepo/latest] beside it by the path as walked,
    root included: line 109 sets [Name: path] where line 130 sets
    [filepath.Rel(dirFilename, path)], which here would be
    [myrepo/latest]. *)
Theorem symlink_entry_keeps_root_prefix :
  map (fun e => HName (header e))
      (fillZipWriter no_fault sample_root sample_tree []).1
  = ["myrepo/README.md"; "org-archive-2024/myrepo/latest"; "responses.json"]
  /\ Rel sample_root "org-archive-2024/myrepo/latest" = inl "myrepo/latest".
Proof. split; vm_compute; reflexivity. Qed.

End PackagerFacts.

(** * Properties of the tail of the Orchestrator *)

Section OrchestratorFacts.
Import Packager Orchestrator.




(** A failure while filling leaves the working directory in place. *)
Example package_copy_fails :
  (package copy_fails).2 = Panicked "could not fill zip writer:read error" /\
  position is_removed (package copy_fails).1 = None.
Proof. split; vm_compute; reflexivity. Qed.

End OrchestratorFacts.

(** * Further properties of the Lister *)

Section ListerCases.
Import Lister Cases.

Lemma endless_full (i : nat) : length (endless i) = perPage.
Proof. unfold endless. by rewrite length_map, length_seq. Qed.

(** The loop never hands back a list together with an error. *)
Lemma pages_exclusive (E : env) :
  forall left i repos reqs,
    let r := pages E left i None repos reqs in
    (is_Some (repos_ret r) -> err_ret r = None) /\
    (is_Some (err_ret r) -> repos_ret r = None).
Proof.
  induction left as [|left IH]; intros i repos reqs; cbn [pages].
  - cbn. split; [done | intros [? ?]; done].
  - destruct (ctx_done E i).
    { cbn. split; intros [? ?]; done. }
    destruct (client_do E i) as [e|code b].
    { cbn. split; [intros [? ?]; done | done]. }
    destruct (negb (Nat.eqb code StatusOK)).
    { cbn. split; [intros [? ?]; done | done]. }
    destruct b as [e|p].
    { cbn. split; [intros [? ?]; done | done]. }
    destruct (Nat.ltb (length p) perPage).
    { cbn. split; [done | intros [? ?]; done]. }
    apply IH.
Qed.

(** Whatever the server replies and whenever the deadline fires,
    [fetchReposData] returns a list only with a nil error and an error only
    with a nil list: no partial listing comes with a failure. *)
Theorem lister_list_or_error (E : env) :
  (is_Some (repos_ret (fetchReposData E)) -> err_ret (fetchReposData E) = None) /\
  (is_Some (err_ret (fetchReposData E)) -> repos_ret (fetchReposData E) = None).
Proof.
  unfold fetchReposData. destruct (new_request_err E).
  - cbn. split; [intros [? ?]; done | done].
  - apply pages_exclusive.
Qed.

(** When, after full pages, the request for page [i] fails in transport,
    comes back with a status other than 200, or with a body that does not
    decode, [fetchReposData] returns a nil list and an error after exactly
    [i] requests: the pages fetched so far are dropped and no further page
    is asked for. *)
Theorem lister_failure_aborts (E : env) (i : nat) :
  new_request_err E = None ->
  1 <= i <= maxPages ->
  (forall j, 1 <= j < i -> full_reply E j) ->
  ctx_done E i = false ->
  failing (client_do E i) ->
  requested (fetchReposData E) = seq 1 i /\
  repos_ret (fetchReposData E) = None /\
  is_Some (err_ret (fetchReposData E)).
Proof.
  intros Hnew Hi Hfull Hctx Hfail. unfold fetchReposData. rewrite Hnew.
  replace maxPages with ((i - 1) + S (maxPages - i)) by lia.
  destruct (pages_through_full E (i - 1) (S (maxPages - i)) 1 None [] [])
    as (ps & _ & _ & _ & Heq).
  { intros d Hd. apply Hfull. lia. }
  rewrite Heq. replace (1 + (i - 1)) with i by lia.
  assert (seq 1 (i - 1) ++ [i] = seq 1 i) as Hseq.
  { destruct i as [|i']; [lia |].
    replace (S i' - 1) with i' by lia. by rewrite seq_S. }
  cbn [pages app]. rewrite Hctx.
  destruct (client_do E i) as [e|code b]; cbn in Hfail.
  - cbn. by rewrite Hseq.
  - destruct (Nat.eqb_spec code StatusOK) as [->|Hne]; cbn [negb].
    + destruct Hfail as [Hfail|[e ->]]; [done |]. cbn. by rewrite Hseq.
    + cbn. by rewrite Hseq.
Qed.

Lemma lister_failure_aborts_witness :
  requested (fetchReposData (breaking 2)) = seq 1 3 /\
  repos_ret (fetchReposData (breaking 2)) = None /\
  is_Some (err_ret (fetchReposData (breaking 2))).
Proof.
  apply (lister_failure_aborts (breaking 2) 3).
  - reflexivity.
  - unfold maxPages. lia.
  - intros j Hj. split; [reflexivity |].
    exists (endless j). split.
    + unfold breaking. cbn [client_do].
      destruct (Nat.leb_spec j 2); [reflexivity | lia].
    + rewrite endless_full. lia.
  - reflexivity.
  - cbn. left. unfold StatusOK. lia.
Defined.

(** A listing that ends with a full page costs one request more: with [k]
    full pages ([k < maxPages]) and nothing after them, [fetchReposData]
    asks for page [k + 1] too, gets an empty page, and returns the [k] pages. *)
Theorem lister_full_last_page_costs_a_request
    (listing : nat -> list MinimalRepository) (k : nat) :
  k < maxPages ->
  (forall j, 1 <= j <= k -> length (listing j) = perPage) ->
  listing (S k) = [] ->
  requested (fetchReposData (healthy listing)) = seq 1 (S k) /\
  repos_ret (fetchReposData (healthy listing)) = Some (concat_pages listing 1 k) /\
  err_ret (fetchReposData (healthy listing)) = None.
Proof.
  intros Hk Hfull Hempty. unfold fetchReposData. cbn [healthy new_request_err].
  replace maxPages with (k + S (maxPages - S k)) by lia.
  destruct (pages_through_full (healthy listing) k (S (maxPages - S k)) 1 None [] [])
    as (ps & Hlen & _ & Hps & Heq).
  { intros d Hd. split; [reflexivity |].
    exists (listing (1 + d)). split; [reflexivity |]. rewrite Hfull; lia. }
  rewrite Heq. cbn [pages healthy ctx_done client_do app].
  rewrite Nat.eqb_refl. cbn [negb].
  change (1 + k) with (S k). rewrite Hempty. cbn.
  assert (ps = map listing (seq 1 k)) as ->.
  { apply list_eq. intros d. rewrite list_lookup_fmap.
    destruct (ps !! d) as [p|] eqn:Hd.
    - pose proof (lookup_lt_Some _ _ _ Hd) as Hlt.
      specialize (Hps d p Hd). cbn in Hps. injection Hps as <-.
      rewrite lookup_seq_lt by lia. reflexivity.
    - apply lookup_ge_None in Hd. rewrite lookup_seq_ge by lia. reflexivity. }
  split; [|split; [|reflexivity]].
  - change (1 :: seq 2 k) with (seq 1 (S k)). by rewrite seq_S.
  - by rewrite app_nil_r.
Qed.

Lemma lister_full_last_page_costs_a_request_witness :
  requested (fetchReposData (healthy (exact 1))) = seq 1 2 /\
  repos_ret (fetchReposData (healthy (exact 1)))
    = Some (concat_pages (exact 1) 1 1) /\
  err_ret (fetchReposData (healthy (exact 1))) = None.
Proof.
  apply (lister_full_last_page_costs_a_request (exact 1) 1).
  - unfold maxPages. lia.
  - intros j Hj. assert (j = 1) as -> by lia. vm_compute. reflexivity.
  - reflexivity.
Defined.

End ListerCases.

(** * Properties of the clone destination *)

Section DestinationFacts.
Import Destination.

Lemma chars_append (a b : string) : String.list_ascii_of_string (a +:+ b) = String.list_ascii_of_string a ++ String.list_ascii_of_string b.
Proof.
  induction a as [|x a IH]; [reflexivity |].
  change (x :: String.list_ascii_of_string (a +:+ b) = x :: (String.list_ascii_of_string a ++ String.list_ascii_of_string b)). by f_equal.
Qed.

Lemma chars_inj (a b : string) : String.list_ascii_of_string a = String.list_ascii_of_string b -> a = b.
Proof.
  intros H. rewrite <- (String.string_of_list_ascii_of_string a),
    <- (String.string_of_list_ascii_of_string b). by f_equal.
Qed.

Lemma is_slash_spec (c : ascii) : is_slash c = true <-> c = slash.
Proof. unfold is_slash. apply Ascii.eqb_eq. Qed.

Lemma is_slash_false (c : ascii) : c <> slash -> is_slash c = false.
Proof.
  intros H. destruct (is_slash c) eqn:E; [|reflexivity].
  by apply is_slash_spec in E.
Qed.

Lemma up_to_slash_app (a b : list ascii) :
  slash ∉ a -> up_to_slash (a ++ slash :: b) = a.
Proof.
  induction a as [|c a IH]; intros Hno; cbn [app up_to_slash].
  - reflexivity.
  - rewrite is_slash_false by (intros ->; apply Hno; by left).
    f_equal. apply IH. intros Hin. apply Hno. by right.
Qed.

Lemma up_to_slash_no_slash (l : list ascii) : slash ∉ up_to_slash l.
Proof.
  induction l as [|c l IH]; cbn; [by apply not_elem_of_nil |].
  destruct (is_slash c) eqn:E; [by apply not_elem_of_nil |].
  intros Hin. apply elem_of_cons in Hin as [<-|Hin]; [|done].
  unfold is_slash in E. by rewrite Ascii.eqb_refl in E.
Qed.

Lemma drop_slashes_head (c : ascii) (l : list ascii) :
  c <> slash -> drop_slashes (c :: l) = c :: l.
Proof. intros H. cbn. by rewrite is_slash_false. Qed.

(** [path.Base] of a path that ends with an element free of slashes. *)
Lemma base_chars_last (p x : list ascii) :
  x <> [] -> slash ∉ x -> base_chars (p ++ slash :: x) = x.
Proof.
  intros Hne Hno. unfold base_chars.
  destruct (p ++ slash :: x) as [|c0 l0] eqn:Hl;
    [by destruct p |].
  rewrite <- Hl. clear Hl c0 l0.
  rewrite rev_app_distr. cbn [rev]. rewrite <- app_assoc. cbn [app].
  destruct (rev x) as [|c r] eqn:Hrev.
  { apply (f_equal (@rev _)) in Hrev. rewrite rev_involutive in Hrev. done. }
  assert (c <> slash) as Hc.
  { intros ->. apply Hno. apply list_elem_of_In, in_rev.
    rewrite Hrev. by left. }
  assert (slash ∉ c :: r) as Hno'.
  { intros Hin. apply Hno. apply list_elem_of_In, in_rev.
    rewrite Hrev. by apply list_elem_of_In. }
  change ((c :: r) ++ slash :: rev p) with (c :: (r ++ slash :: rev p)).
  rewrite drop_slashes_head by done.
  change (c :: (r ++ slash :: rev p)) with ((c :: r) ++ slash :: rev p).
  rewrite up_to_slash_app by done.
  rewrite <- Hrev, rev_involutive. by destruct x.
Qed.

Lemma strip_chars_app (p l : list ascii) : strip_chars p (p ++ l) = Some l.
Proof.
  induction p as [|a p IH]; cbn; [reflexivity |]. by rewrite Ascii.eqb_refl.
Qed.

Lemma strip_chars_Some (p l r : list ascii) :
  strip_chars p l = Some r -> l = p ++ r.
Proof.
  revert l. induction p as [|a p IH]; intros [|b l] H; cbn in H;
    try by simplify_eq.
  destruct (Ascii.eqb_spec a b) as [->|]; [|done].
  cbn. f_equal. by apply IH.
Qed.

Lemma trim_suffix_chars_app (x suffix : list ascii) :
  trim_suffix_chars (x ++ suffix) suffix = x.
Proof.
  unfold trim_suffix_chars.
  rewrite rev_app_distr, strip_chars_app. apply rev_involutive.
Qed.

Lemma trim_suffix_chars_sub (x suffix : list ascii) (c : ascii) :
  c ∈ trim_suffix_chars x suffix -> c ∈ x.
Proof.
  unfold trim_suffix_chars.
  destruct (strip_chars (rev suffix) (rev x)) as [r|] eqn:Hs; [|done].
  apply strip_chars_Some in Hs. intros Hin.
  apply list_elem_of_In, in_rev. rewrite Hs.
  apply in_or_app. right. apply in_rev. by apply list_elem_of_In.
Qed.

(** A repository whose URL ends with the element [name], with or without
    [.git] after it, is cloned into the directory [name]: only the last
    element of the URL counts, the host and the organization before it do
    not, and the two spellings of the URL share one directory. *)
Theorem clone_name_is_last_element (prefix name : string) :
  name <> "" ->
  no_slash name ->
  no_git_suffix name ->
  clone_name (prefix +:+ "/" +:+ name +:+ ".git") = name /\
  clone_name (prefix +:+ "/" +:+ name) = name.
Proof.
  intros Hne Hno Hgit.
  assert (String.list_ascii_of_string name <> []) as Hne'.
  { intros H. apply Hne. apply chars_inj. by rewrite H. }
  split; apply chars_inj; unfold clone_name, TrimSuffix, Base;
    rewrite !String.list_ascii_of_string_of_list_ascii, !chars_append.
  - change (String.list_ascii_of_string "/") with [slash]. cbn [app].
    rewrite base_chars_last.
    + apply trim_suffix_chars_app.
    + by destruct (String.list_ascii_of_string name).
    + intros Hin. apply elem_of_app in Hin as [Hin|Hin]; [done |].
      vm_compute in Hin.
      repeat (apply elem_of_cons in Hin as [Hin|Hin]; [discriminate |]).
      by apply elem_of_nil in Hin.
  - change (String.list_ascii_of_string "/") with [slash]. cbn [app].
    rewrite base_chars_last by done.
    unfold trim_suffix_chars. unfold no_git_suffix in Hgit. by rewrite Hgit.
Qed.

Lemma clone_name_is_last_element_witness :
  clone_name ("https://host/org" +:+ "/" +:+ "myrepo" +:+ ".git") = "myrepo" /\
  clone_name ("https://host/org" +:+ "/" +:+ "myrepo") = "myrepo".
Proof.
  apply (clone_name_is_last_element "https://host/org" "myrepo").
  - discriminate.
  - unfold no_slash. vm_compute.
    intros Hin.
    repeat (apply elem_of_cons in Hin as [Hin|Hin]; [discriminate |]).
    by apply elem_of_nil in Hin.
  - vm_compute. reflexivity.
Defined.

(** Whatever the URL, the name of the clone directory holds no slash,
    unless it is the single slash that [path.Base] gives for a URL made of
    slashes only.  (The name can still be empty, a dot or two dots.) *)
Theorem clone_name_has_no_slash (s : string) :
  clone_name s = "/" \/ no_slash (clone_name s).
Proof.
  unfold clone_name, TrimSuffix, Base, no_slash.
  rewrite !String.list_ascii_of_string_of_list_ascii.
  set (l := String.list_ascii_of_string s). unfold base_chars.
  destruct l as [|c0 l0].
  { right. vm_compute. intros Hin.
    repeat (apply elem_of_cons in Hin as [Hin|Hin]; [discriminate |]).
    by apply elem_of_nil in Hin. }
  destruct (rev (up_to_slash (drop_slashes (rev (c0 :: l0))))) as [|c r] eqn:Hb.
  { left. reflexivity. }
  right. intros Hin. apply trim_suffix_chars_sub in Hin.
  rewrite <- Hb in Hin. apply list_elem_of_In, in_rev, list_elem_of_In in Hin.
  by apply up_to_slash_no_slash in Hin.
Qed.

End DestinationFacts.

(** * Further properties of the pool *)

Section PoolCases.
Import Pool.

Ltac fired H s' := apply (inj Some) in H; subst s'.




Lemma in_flight_length (ws : list worker) : length (in_flight ws) <= length ws.
Proof.
  unfold in_flight. induction ws as [|w ws IH]; cbn; [lia |].
  rewrite length_app. destruct w; cbn; lia.
Qed.

Lemma spawned_at_most N m n : spawned N m n -> n <= N.
Proof. destruct m; cbn; lia. Qed.

(** The pool is bounded: in every reachable state no more than [N] workers
    exist and no more than [N] clones are going on, each of a URL that was
    handed over and has not been attempted otherwise. *)
Theorem pool_runs_at_most_N_clones N repos s :
  reachable N repos s ->
  length (workers s) <= N /\
  length (in_flight (workers s)) <= N /\
  (forall u, u ∈ in_flight (workers s) -> u ∈ sent s).
Proof.
  intros Hreach. destruct (invariant_reachable _ _ _ Hreach)
    as [_ Hpool _ _ Hatt _ _ _ _].
  apply spawned_at_most in Hpool.
  split; [exact Hpool |]. split.
  - pose proof (in_flight_length (workers s)). lia.
  - intros u Hu. rewrite <- Hatt. apply elem_of_app. by right.
Qed.

Lemma pool_runs_at_most_N_clones_witness :
  length (workers Runs.busy_state) <= cloningWorkers /\
  length (in_flight (workers Runs.busy_state)) <= cloningWorkers /\
  (forall u, u ∈ in_flight (workers Runs.busy_state) -> u ∈ sent Runs.busy_state).
Proof.
  apply (pool_runs_at_most_N_clones cloningWorkers two_repos Runs.busy_state).
  apply (run_reachable _ _ Runs.busy_schedule). vm_compute. reflexivity.
Defined.

(** No clone is attempted of a URL that the listing does not hold, and no
    more clones return than the listing has entries. *)
Theorem pool_attempts_within_listing N repos s :
  reachable N repos s ->
  (forall u r, (u, r) ∈ attempts s -> u ∈ map CloneUrl repos) /\
  length (attempts s) <= length repos.
Proof.
  intros Hreach. destruct (invariant_reachable _ _ _ Hreach)
    as [_ _ _ Hsent Hatt _ _ _ _].
  split.
  - intros u r Hin. rewrite <- Hsent. apply elem_of_app. left.
    rewrite <- Hatt. apply elem_of_app. left.
    apply list_elem_of_fmap. by exists (u, r).
  - apply Permutation_length in Hatt.
    apply (f_equal length) in Hsent.
    rewrite length_app, !length_map in *. lia.
Qed.

Lemma pool_attempts_within_listing_witness :
  (forall u r, (u, r) ∈ attempts packaged_state -> u ∈ map CloneUrl two_repos) /\
  length (attempts packaged_state) <= length two_repos.
Proof.
  apply (pool_attempts_within_listing cloningWorkers two_repos packaged_state).
  apply (run_reachable _ _ full_schedule). vm_compute. reflexivity.
Defined.

(** The one way lines 59-64 can come to a halt short of the barrier: with
    a worker or more and no panic, in every reachable state either the
    barrier has been passed, or some goroutine can move, or the main
    goroutine is in the send of line 189 after the deadline has fired and
    every worker has returned. *)
Theorem pool_halts_only_in_the_send N repos s :
  1 <= N ->
  reachable N repos s ->
  panicked s = None ->
  main s = AtPackage \/
  (exists s', quiet_step N repos s s') \/
  (exists repo rest,
      main s = AtSend (repo :: rest) /\ cancelled s = true /\
      forall w, w ∈ workers s -> w = Returned).
Proof.
  intros HN Hreach Hpan.
  pose proof (invariant_reachable _ _ _ Hreach) as Hinv.
  destruct (cancelled s) eqn:Hc; cycle 1.
  { destruct (main s) eqn:Hm; try (by left); right; left;
      (apply quiet_progress; [done | done | done | done | congruence]). }
  destruct Hinv as [Hwg Hpool Hp Hsent Hatt Hcl Hbar Hfail Hret].
  assert (forall a, quiet a = true ->
            is_Some (fire_alive N repos a s) ->
            exists s', quiet_step N repos s s') as Hgo.
  { intros a Hq [s' Hs']. exists s', a. split; [exact Hq |].
    unfold fire. by rewrite Hpan. }
  destruct (main s) as [|i|[|repo rest]| |] eqn:Hmain.
  - right; left. apply (Hgo Main); [done |].
    unfold fire_alive, main_step. by rewrite Hmain.
  - right; left. apply (Hgo Main); [done |].
    unfold fire_alive, main_step. rewrite Hmain. by destruct (Nat.ltb i N).
  - right; left. apply (Hgo Main); [done |].
    unfold fire_alive, main_step. by rewrite Hmain.
  - destruct (decide (sum_list_with owes (workers s) = 0)) as [H0|Hne].
    + right; right. exists repo, rest. repeat split.
      by apply owes_nothing_all_returned.
    + right; left. destruct (owing_worker _ Hne) as (j & w & Hj & Hw).
      destruct w; [| | |done].
      * apply (Hgo (WStart j)); [done |]. cbn. by rewrite Hj.
      * apply (Hgo (Handover j)); [done |]. cbn. by rewrite Hmain, Hj.
      * apply (Hgo (WCloneReturns j None)); [done |]. cbn. by rewrite Hj.
  - right; left.
    destruct (wg s) eqn:Hw.
    + apply (Hgo Main); [done |]. unfold fire_alive, main_step.
      by rewrite Hmain, Hw.
    + unfold owing in Hwg.
      destruct (persist s) as [[]|] eqn:Hps;
        try (destruct (owing_worker (workers s)) as (j & w & Hj & Hne);
             [lia |];
             destruct w; [| | |done];
             [apply (Hgo (WStart j)); [done |]; cbn; by rewrite Hj
             |apply (Hgo (WCtxDone j)); [done |]; cbn; by rewrite Hc, Hj
             |apply (Hgo (WCloneReturns j None)); [done |]; cbn; by rewrite Hj]).
      apply (Hgo PSaved); [done |]. cbn. by rewrite Hps.
  - by left.
Qed.

Lemma pool_halts_only_in_the_send_witness :
  main deadlocked_state = AtPackage \/
  (exists s', quiet_step cloningWorkers ten_repos deadlocked_state s') \/
  (exists repo rest,
      main deadlocked_state = AtSend (repo :: rest) /\
      cancelled deadlocked_state = true /\
      forall w, w ∈ workers deadlocked_state -> w = Returned).
Proof.
  apply (pool_halts_only_in_the_send cloningWorkers ten_repos deadlocked_state).
  - unfold cloningWorkers. lia.
  - apply (run_reachable _ _ deadline_schedule). vm_compute. reflexivity.
  - vm_compute. reflexivity.
Defined.

End PoolCases.

(** * Further properties of the Packager *)

Section PackagerCases.
Import Packager Cases.

Lemma regular_files_Dir path perm es :
  regular_files path (Dir perm es) = regular_files_all path es.
Proof.
  cbn [regular_files]. induction es as [|[name1 d1] es IH]; [reflexivity |].
  cbn [regular_files_all]. by rewrite IH.
Qed.

Lemma walkAll_filled F root path es :
  Forall (fun x => forall path name w w',
            walkDir F root path name x.2 w = (w', None) ->
            exists added, w' = w ++ added /\
                          well_filled root path x.2 added) es ->
  forall w w',
    walkAll F root path es w = (w', None) ->
    exists added, w' = w ++ added /\ well_filled_all root path es added.
Proof.
  induction 1 as [|[name1 d1] es Hd _ IH]; intros w w' Hwalk; cbn in Hwalk.
  - injection Hwalk as <-. exists []. split; [by rewrite app_nil_r |].
    split; [|split; [reflexivity | constructor]].
    intros p perm data Hin. by apply elem_of_nil in Hin.
  - destruct (walkDir F root (Join path name1) name1 d1 w) as [w1 [e|]] eqn:Hw1;
      [discriminate |].
    destruct (Hd _ _ _ _ Hw1) as (a1 & -> & Hf1 & Hl1 & Hn1).
    destruct (IH _ _ Hwalk) as (a2 & -> & Hf2 & Hl2 & Hn2).
    exists (a1 ++ a2). split; [by rewrite app_assoc |].
    cbn [snd] in *. split; [|split].
    + intros p perm data Hin. cbn [regular_files_all] in Hin.
      apply elem_of_app in Hin as [Hin|Hin].
      * destruct (Hf1 _ _ _ Hin) as (e & He & Hr). exists e.
        split; [apply elem_of_app; by left | exact Hr].
      * destruct (Hf2 _ _ _ Hin) as (e & He & Hr). exists e.
        split; [apply elem_of_app; by right | exact Hr].
    + cbn [regular_files_all symlinks_all]. rewrite !length_app. lia.
    + by apply Forall_app.
Qed.

Lemma walkDir_filled F root n :
  forall path name w w',
    walkDir F root path name n w = (w', None) ->
    exists added, w' = w ++ added /\ well_filled root path n added.
Proof.
  induction n as [perm data|target|perm es IH] using node_rect_entries;
    intros path name w w' Hwalk.
  - cbn [walkDir] in Hwalk. unfold visit in Hwalk.
    rewrite IsDir_File, File_not_symlink in Hwalk.
    destruct (Rel root path) as [rel|e] eqn:Hrel;
      repeat case_match; simplify_eq.
    eexists. split; [reflexivity |]. split; [|split].
    + intros p perm' data' Hin. cbn in Hin.
      apply list_elem_of_singleton in Hin. simplify_eq.
      eexists. split; [by apply list_elem_of_singleton |].
      by repeat split.
    + reflexivity.
    + constructor; [|constructor]. unfold not_a_directory. cbn.
      by apply perm_has_no_type_bit.
  - cbn [walkDir] in Hwalk. unfold visit in Hwalk.
    change (IsDir (Symlink target)) with false in Hwalk.
    change (Z.eqb (Z.land (Mode (Symlink target)) ModeSymlink) ModeSymlink)
      with true in Hwalk.
    cbn match in Hwalk.
    repeat case_match; simplify_eq.
    eexists. split; [reflexivity |]. split; [|split].
    + intros p perm data Hin. by apply elem_of_nil in Hin.
    + reflexivity.
    + constructor; [|constructor]. reflexivity.
  - rewrite walkDir_Dir in Hwalk.
    destruct (F OpReadDir path); [discriminate |].
    unfold well_filled. rewrite regular_files_Dir, symlinks_Dir.
    eapply walkAll_filled; eassumption.
Qed.

(** When [fillZipWriter] returns without error, every regular file of the
    working directory has an entry named by its path relative to the root,
    with the permission bits of the file, stored, and with the bytes of the
    file as payload. *)
Theorem regular_files_are_recorded F root tree w :
  fillZipWriter F root tree [] = (w, None) ->
  forall path perm data,
    (path, perm, data) ∈ regular_files root tree ->
    exists e, e ∈ w /\
              Rel root path = inl (HName (header e)) /\
              HMode (header e) = Z.land perm ModePerm /\
              payload e = data /\
              Method (header e) = Store.
Proof.
  intros Hfill path perm data Hin.
  destruct (walkDir_filled F root tree _ _ _ _ Hfill) as (added & -> & Hf & _).
  destruct (Hf _ _ _ Hin) as (e & He & Hr). exists e. by rewrite app_nil_l.
Qed.

Lemma regular_files_are_recorded_witness :
  ("org-archive-2024/myrepo/README.md", 420%Z, "hello")
    ∈ regular_files sample_root sample_tree /\
  exists e, e ∈ (fillZipWriter no_fault sample_root sample_tree []).1 /\
            Rel sample_root "org-archive-2024/myrepo/README.md"
              = inl (HName (header e)) /\
            HMode (header e) = Z.land 420 ModePerm /\
            payload e = "hello" /\
            Method (header e) = Store.
Proof.
  assert (("org-archive-2024/myrepo/README.md", 420%Z, "hello")
            ∈ regular_files sample_root sample_tree) as Hin.
  { vm_compute. apply elem_of_cons. by left. }
  split; [exact Hin |].
  apply (regular_files_are_recorded no_fault sample_root sample_tree
           (fillZipWriter no_fault sample_root sample_tree []).1);
    [vm_compute; reflexivity | exact Hin].
Defined.

(** When [fillZipWriter] returns without error, the archive holds one entry
    for each regular file and each link of the working directory and
    nothing else: no entry is one of a directory, so an empty directory
    leaves no trace in the archive. *)
Theorem archive_holds_files_and_links_only F root tree w :
  fillZipWriter F root tree [] = (w, None) ->
  length w = length (regular_files root tree) + length (symlinks root tree) /\
  Forall not_a_directory w.
Proof.
  intros Hfill.
  destruct (walkDir_filled F root tree _ _ _ _ Hfill) as (added & -> & _ & Hl & Hn).
  by rewrite app_nil_l.
Qed.

Lemma archive_holds_files_and_links_only_witness :
  length (fillZipWriter no_fault sample_root sample_tree []).1
  = length (regular_files sample_root sample_tree)
    + length (symlinks sample_root sample_tree) /\
  Forall not_a_directory (fillZipWriter no_fault sample_root sample_tree []).1.
Proof.
  apply (archive_holds_files_and_links_only no_fault sample_root sample_tree).
  vm_compute. reflexivity.
Defined.





End PackagerCases.

(** * Further properties of the Orchestrator *)

Section OrchestratorCases.
Import Lister Packager Orchestrator Startup.

(** The working directory is removed in the runs that complete and in no
    other, and so is completion reported: a run that panics, wherever it
    does, leaves the working directory in place. *)
Theorem working_directory_removed_iff_completed (W : world) :
  ((package W).2 = Completed <-> RemovedWorkingDir ∈ (package W).1) /\
  ((package W).2 = Completed <-> Printed (done_line W) ∈ (package W).1).
Proof.
  unfold package, leave.
  destruct (open_zip_err W); cbn.
  { split; (split; [discriminate |]); intros Hin;
      repeat (apply elem_of_cons in Hin as [Hin|Hin]; [discriminate |]);
      by apply elem_of_nil in Hin. }
  destruct (fillZipWriter _ _ _ _) as [w [e|]]; cbn.
  { split; (split; [discriminate |]); intros Hin;
      repeat (apply elem_of_cons in Hin as [Hin|Hin]; [discriminate |]);
      by apply elem_of_nil in Hin. }
  destruct (remove_all_err W); cbn.
  { split; (split; [discriminate |]); intros Hin;
      repeat (apply elem_of_cons in Hin as [Hin|Hin]; [discriminate |]);
      by apply elem_of_nil in Hin. }
  split; (split; [intros _ | done]).
  - do 2 (apply elem_of_cons; right). apply elem_of_cons. by left.
  - do 3 (apply elem_of_cons; right). apply elem_of_cons. by left.
Qed.

(** Once the zip file is open, every run, the panicking ones too, ends
    with the writer closed, then the file closed, then the context
    cancelled: a fill that fails still leaves a finalized archive of the
    entries written so far beside the working directory. *)
Theorem archive_closed_once_opened (W : world) :
  open_zip_err W = None ->
  exists mid,
    (package W).1 =
    [OpenedZipFile;
     Wrote (fillZipWriter (io W) (dirFilename W) (tree W) []).1]
    ++ mid
    ++ [ClosedWriter (writer_close_err W); ClosedZipFile (file_close_err W);
        Cancelled] /\
    (mid = [] \/ mid = [RemovedWorkingDir; Printed (done_line W)]).
Proof.
  intros Hopen. unfold package, leave. rewrite Hopen.
  destruct (fillZipWriter _ _ _ _) as [w [e|]]; cbn.
  - exists []. split; [reflexivity | by left].
  - destruct (remove_all_err W); cbn.
    + exists []. split; [reflexivity | by left].
    + exists [RemovedWorkingDir; Printed (done_line W)].
      split; [reflexivity | by right].
Qed.

Lemma archive_closed_once_opened_witness :
  exists mid,
    (package copy_fails).1 =
    [OpenedZipFile;
     Wrote (fillZipWriter (io copy_fails) (dirFilename copy_fails)
              (tree copy_fails) []).1]
    ++ mid
    ++ [ClosedWriter (writer_close_err copy_fails);
        ClosedZipFile (file_close_err copy_fails); Cancelled] /\
    (mid = [] \/ mid = [RemovedWorkingDir; Printed (done_line copy_fails)]).
Proof. apply (archive_closed_once_opened copy_fails). reflexivity. Defined.

(** When the deadline fires during the listing, after full pages, [main]
    does not stop: [fetchReposData] hands back a nil error, so [main]
    reports zero repositories, creates the working directory and goes on
    with an empty listing; the pages fetched are lost. *)
Theorem head_goes_on_after_deadline (I : inputs) (i : nat) :
  ORG I <> "" ->
  GITHUB_TOKEN I <> "" ->
  new_request_err (listing I) = None ->
  1 <= i <= maxPages ->
  ctx_done (listing I) i = true ->
  (forall j, 1 <= j < i -> full_reply (listing I) j) ->
  mkdir_err I = None ->
  out (head I)
    = Running (String.concat "" [ORG I; "-archive-"; now I]) [] /\
  requests (head I) = seq 1 (i - 1) /\
  printed (head I) = [fetched_line 0].
Proof.
  intros Horg Htok Hnew Hi Hdone Hfull Hmk. unfold head.
  apply String.eqb_neq in Horg, Htok. rewrite Horg, Htok.
  rewrite (lister_deadline_gives_nil_error (listing I) i Hnew Hi Hdone Hfull).
  cbn. by rewrite Hmk.
Qed.

Lemma head_goes_on_after_deadline_witness :
  out (head late)
    = Running (String.concat "" [ORG late; "-archive-"; now late]) [] /\
  requests (head late) = seq 1 (4 - 1) /\
  printed (head late) = [fetched_line 0].
Proof.
  apply (head_goes_on_after_deadline late 4).
  - discriminate.
  - discriminate.
  - reflexivity.
  - unfold maxPages. lia.
  - reflexivity.
  - intros j Hj. split.
    + unfold late, expiring. cbn [listing ctx_done]. apply Nat.ltb_ge. lia.
    + exists (endless j). split; [reflexivity |].
      unfold endless. rewrite length_map, length_seq. lia.
  - reflexivity.
Defined.

End OrchestratorCases.
